(** * S3IterableDataset: a shallow embedding and its specification

    The development follows [s3torchconnector/s3iterable_dataset.py].
    The dataset object is a record whose only mutable field is the client
    handle; the S3 service, the client constructor and the user transform are
    the dataset's collaborators.  Python exceptions are values of [exn], and a
    method is a function in a state-and-exception monad whose state survives
    a raised exception, as a Python object does. *)

From Stdlib Require Import Strings.String Strings.Byte Lists.List Bool.Bool Arith.Arith Lia.
Import ListNotations.
Open Scope string_scope.
Open Scope list_scope.

Set Implicit Arguments.

(** ** Values and exceptions *)

(** [_s3bucket_key.S3BucketKey]: a named pair. *)
Record S3BucketKey : Type := mkBucketKey { bucket : string; key : string }.

Definition bucket_key_eqb (a b : S3BucketKey) : bool :=
  String.eqb (bucket a) (bucket b) && String.eqb (key a) (key b).

(** What the service can answer to a request instead of data. *)
Inductive StoreFailure : Type :=
| NotFound
| AccessDenied
| Unavailable
| Timeout
| ConnectionReset.

Definition transient (f : StoreFailure) : bool :=
  match f with
  | Unavailable | Timeout | ConnectionReset => true
  | NotFound | AccessDenied => false
  end.

(** Exceptions.  The dataset itself raises none of them: [S3Exception] and
    [StoreUnavailable] come from the client, [InvalidSpecification] from URI
    parsing, [UserError] from a user transform.  [ObjectFetchFailed] and
    [TransformFailed] are the wrappers the specification names. *)
Inductive exn : Type :=
| StopIteration
| InvalidSpecification (uri : string)
| StoreUnavailable (cause : StoreFailure)
| S3Exception (cause : StoreFailure)
| ObjectFetchFailed (id : S3BucketKey) (cause : exn)
| TransformFailed (id : S3BucketKey) (cause : exn)
| UserError (msg : string).

Inductive result (A : Type) : Type :=
| Ok (a : A)
| Err (e : exn).
Arguments Ok {A} a.
Arguments Err {A} e.

(** ** The monad of methods: state passing with exceptions *)

Definition M (S A : Type) : Type := S -> result A * S.

Definition ret {S A : Type} (a : A) : M S A := fun s => (Ok a, s).

Definition raise {S A : Type} (e : exn) : M S A := fun s => (Err e, s).

Definition bind {S A B : Type} (m : M S A) (f : A -> M S B) : M S B :=
  fun s =>
    match m s with
    | (Ok a, s') => f a s'
    | (Err e, s') => (Err e, s')
    end.

Definition gets {S A : Type} (f : S -> A) : M S A := fun s => (Ok (f s), s).

Definition modify {S : Type} (f : S -> S) : M S unit := fun s => (Ok tt, f s).

Definition of_result {S A : Type} (r : result A) : M S A := fun s => (r, s).

Declare Scope py_scope.
Delimit Scope py_scope with py.
Notation "x <- c1 ;; c2" := (bind c1 (fun x => c2))
  (at level 61, c1 at next level, right associativity) : py_scope.
Notation "c1 ;; c2" := (bind c1 (fun _ => c2))
  (at level 61, right associativity) : py_scope.
Open Scope py_scope.

(** ** The S3 service and its client *)

(** [_s3client.S3Client]: a handle, told apart from others by [client_id]. *)
Record S3Client : Type := mkClient { client_region : string; client_id : nat }.

(** [S3Reader]: the handle [get_object] returns. *)
Record S3Reader : Type :=
  mkReader { reader_bucket : string; reader_key : string; reader_body : list byte }.

(** Calls that leave the dataset, in the order they are made.  A
    [GetObject] records whether the request was answered with a reader. *)
Inductive Event : Type :=
| NewClient (c : S3Client)
| ListObjects (c : S3Client) (bkt pre : string)
| GetObject (c : S3Client) (bk : S3BucketKey) (answered : bool)
| Transform (bk : S3BucketKey).

(** The remote store: the objects in listing order, and the buckets whose
    listing is refused. *)
Record Store : Type :=
  mkStore { objects : list (S3BucketKey * list byte);
            unlistable : list (string * StoreFailure) }.

(** The caller's one-shot iterators of URIs (a generator, an open file),
    by address: what each has still to yield.  Reading one uses it up. *)
Definition Iterators : Type := list (nat * list string).

(** The world outside the dataset.  [outages] are failures injected into the
    next requests for a key: each is consumed by the request it fails.
    [iterators] are the objects of the caller that a selection callable may
    hold and use up. *)
Record World : Type :=
  mkWorld { store : Store;
            outages : list (S3BucketKey * StoreFailure);
            clients_created : nat;
            trace : list Event;
            iterators : Iterators }.

Definition log (e : Event) (w : World) : World :=
  mkWorld (store w) (outages w) (clients_created w) (trace w ++ [e]) (iterators w).

Definition with_iterators (w : World) (k : Iterators) : World :=
  mkWorld (store w) (outages w) (clients_created w) (trace w) k.

(** A computation on the caller's objects, run in the world. *)
Definition in_iterators {A : Type} (m : M Iterators A) : M World A :=
  fun w => let (r, k) := m (iterators w) in (r, with_iterators w k).

Fixpoint assoc_key {V : Type} (bk : S3BucketKey) (l : list (S3BucketKey * V)) : option V :=
  match l with
  | [] => None
  | (k, v) :: l' => if bucket_key_eqb bk k then Some v else assoc_key bk l'
  end.

Fixpoint drop_key {V : Type} (bk : S3BucketKey) (l : list (S3BucketKey * V))
  : list (S3BucketKey * V) :=
  match l with
  | [] => []
  | (k, v) :: l' => if bucket_key_eqb bk k then l' else (k, v) :: drop_key bk l'
  end.

Fixpoint assoc_bucket {V : Type} (b : string) (l : list (string * V)) : option V :=
  match l with
  | [] => None
  | (k, v) :: l' => if String.eqb b k then Some v else assoc_bucket b l'
  end.

(** What a request for [bk] is answered in world [w]. *)
Definition fetch_outcome (w : World) (bk : S3BucketKey) : result S3Reader :=
  match assoc_key bk (outages w) with
  | Some f => Err (S3Exception f)
  | None =>
      match assoc_key bk (objects (store w)) with
      | Some body => Ok (mkReader (bucket bk) (key bk) body)
      | None => Err (S3Exception NotFound)
      end
  end.

(** What a listing of [bkt] under [pre] is answered by store [st]. *)
Definition listing_outcome (st : Store) (bkt pre : string) : result (list string) :=
  match assoc_bucket bkt (unlistable st) with
  | Some f => Err (StoreUnavailable f)
  | None =>
      Ok (map (fun o => key (fst o))
              (filter (fun o => String.eqb (bucket (fst o)) bkt
                                && String.prefix pre (key (fst o)))
                      (objects st)))
  end.

(** [S3Client(region)]. *)
Definition S3Client_new (rgn : string) : M World S3Client :=
  fun w =>
    let c := mkClient rgn (clients_created w) in
    (Ok c, mkWorld (store w) (outages w) (S (clients_created w))
                   (trace w ++ [NewClient c]) (iterators w)).

(** [client.get_object(bucket, key)]: one request, answered or failed. *)
Definition get_object (c : S3Client) (bkt k : string) : M World S3Reader :=
  fun w =>
    let bk := mkBucketKey bkt k in
    match fetch_outcome w bk with
    | Ok r => (Ok r, log (GetObject c bk true) w)
    | Err e =>
        (Err e, mkWorld (store w) (drop_key bk (outages w)) (clients_created w)
                        (trace w ++ [GetObject c bk false]) (iterators w))
    end.

(** [client.list_objects(bucket, prefix)], the request behind a listing. *)
Definition list_objects (c : S3Client) (bkt pre : string) : M World (list string) :=
  fun w => (listing_outcome (store w) bkt pre, log (ListObjects c bkt pre) w).

(** ** Iterables of bucket keys

    [Iterable[S3BucketKey]] as the selection callables build it: a finite lazy
    sequence whose only access to the store is a listing, made when the
    sequence is pulled. *)
Inductive Iterable : Type :=
| Exhausted
| Yield (bk : S3BucketKey) (rest : Iterable)
| Raise (e : exn)
| Listing (c : S3Client) (bkt pre : string) (k : list string -> Iterable).

Fixpoint of_list (l : list S3BucketKey) : Iterable :=
  match l with
  | [] => Exhausted
  | bk :: l' => Yield bk (of_list l')
  end.

(** [next(it)]: the element or the exception, and the iterator afterwards. *)
Fixpoint next_key (it : Iterable) (w : World) : result S3BucketKey * Iterable * World :=
  match it with
  | Exhausted => (Err StopIteration, Exhausted, w)
  | Yield bk rest => (Ok bk, rest, w)
  | Raise e => (Err e, Exhausted, w)
  | Listing c bkt pre k =>
      match list_objects c bkt pre w with
      | (Ok keys, w') => next_key (k keys) w'
      | (Err e, w') => (Err e, Exhausted, w')
      end
  end.

(** The elements an iterable yields against store [st], when pulling it to
    the end raises nothing. *)
Fixpoint elements (st : Store) (it : Iterable) : result (list S3BucketKey) :=
  match it with
  | Exhausted => Ok []
  | Yield bk rest =>
      match elements st rest with
      | Ok l => Ok (bk :: l)
      | Err e => Err e
      end
  | Raise e => Err e
  | Listing _ bkt pre k =>
      match listing_outcome st bkt pre with
      | Ok keys => elements st (k keys)
      | Err e => Err e
      end
  end.

(** ** The dataset object *)

(** Python values a transform may return. *)
Inductive Any : Type :=
| AnyReader (r : S3Reader)
| AnyBytes (b : list byte)
| AnyInt (n : nat)
| AnyStr (s : string)
| AnyNone.

(** The four attributes [__init__] assigns.  The selection callable is
    applied to the client and runs on the caller's objects, which it may
    use up: two calls need not return the same iterable.  Its requests to
    the store are those of the iterable it returns. *)
Record S3IterableDataset : Type :=
  mkDataset { _get_dataset_objects : S3Client -> M Iterators Iterable;
              _transform : S3Reader -> result Any;
              _region : string;
              _client : option S3Client }.

(** A method runs on the dataset object [self] and on the world. *)
Record Heap : Type := mkHeap { self : S3IterableDataset; world : World }.

Definition in_world {A : Type} (m : M World A) : M Heap A :=
  fun h => let (r, w') := m (world h) in (r, mkHeap (self h) w').

Definition set_client (c : S3Client) : M Heap unit :=
  modify (fun h =>
            mkHeap (mkDataset (_get_dataset_objects (self h)) (_transform (self h))
                              (_region (self h)) (Some c))
                   (world h)).

(** [@property region]. *)
Definition region : M Heap string := gets (fun h => _region (self h)).

(** [_get_client]: the stored handle, created on the first call. *)
Definition _get_client : M Heap S3Client :=
  cur <- gets (fun h => _client (self h)) ;;
  match cur with
  | None =>
      rgn <- region ;;
      c <- in_world (S3Client_new rgn) ;;
      set_client c ;;
      ret c
  | Some c => ret c
  end.

(** [_get_transformed_object]: one [get_object], then the transform. *)
Definition _get_transformed_object (bk : S3BucketKey) : M Heap Any :=
  f <- gets (fun h => _transform (self h)) ;;
  c <- _get_client ;;
  r <- in_world (get_object c (bucket bk) (key bk)) ;;
  in_world (modify (log (Transform bk))) ;;
  of_result (f r).

(** [__iter__]: the selection callable is applied to the client now, and
    runs on the caller's objects; the [map] object returned holds the
    iterable and fetches nothing yet. *)
Definition __iter__ : M Heap Iterable :=
  sel <- gets (fun h => _get_dataset_objects (self h)) ;;
  c <- _get_client ;;
  in_world (in_iterators (sel c)).

(** [next] on the [map] object of [__iter__]: pull one key, fetch and
    transform it.  An exception leaves the [map] object advanced. *)
Definition map_next (m : Iterable) (h : Heap) : result Any * Iterable * Heap :=
  match next_key m (world h) with
  | (Ok bk, m', w') =>
      let (r, h') := _get_transformed_object bk (mkHeap (self h) w') in (r, m', h')
  | (Err e, m', w') => (Err e, m', mkHeap (self h) w')
  end.

(** How a [for] loop reads the exception that ends it. *)
Definition stop_cause (e : exn) : option exn :=
  match e with
  | StopIteration => None
  | _ => Some e
  end.

(** A [for] loop over the [map] object: the items it receives, the exception
    that ended it if one did, and the heap afterwards. *)
Fixpoint consume (m : Iterable) (h : Heap) : list Any * option exn * Heap :=
  match m with
  | Exhausted => ([], None, h)
  | Raise e => ([], stop_cause e, h)
  | Yield bk rest =>
      match _get_transformed_object bk h with
      | (Ok x, h') => let '(xs, oe, h'') := consume rest h' in (x :: xs, oe, h'')
      | (Err e, h') => ([], stop_cause e, h')
      end
  | Listing c bkt pre k =>
      match in_world (list_objects c bkt pre) h with
      | (Ok keys, h') => consume (k keys) h'
      | (Err e, h') => ([], stop_cause e, h')
      end
  end.

(** [for item in dataset]: [__iter__], then the loop. *)
Definition traverse (h : Heap) : list Any * option exn * Heap :=
  match __iter__ h with
  | (Ok m, h') => consume m h'
  | (Err e, h') => ([], Some e, h')
  end.

(** ** Construction *)

(** [Union[str, Iterable[str]]]: one URI, a collection that can be
    iterated again and again (a list, a tuple), or a one-shot iterator of
    the caller, given by its address. *)
Inductive ObjectUris : Type :=
| OneUri (uri : string)
| ManyUris (uris : list string)
| UriIterator (ref : nat).

(** [functools.partial] with one bound argument. *)
Definition partial {A B C : Type} (f : A -> B -> C) (a : A) : B -> C := fun b => f a b.

Definition default {A : Type} (d : A) (o : option A) : A :=
  match o with
  | Some a => a
  | None => d
  end.

Section Constructors.

(** The three names imported from [_s3dataset_common]. *)
Variable identity : S3Reader -> result Any.
Variable get_objects_from_uris : ObjectUris -> S3Client -> M Iterators Iterable.
Variable get_objects_from_prefix : string -> S3Client -> M Iterators Iterable.

(** [cls(region, get_dataset_objects, transform=identity)]. *)
Definition __init__ (rgn : string)
           (get_dataset_objects : S3Client -> M Iterators Iterable)
           (transform : option (S3Reader -> result Any))
  : M World S3IterableDataset :=
  ret (mkDataset get_dataset_objects (default identity transform) rgn None).

Definition from_objects (object_uris : ObjectUris) (rgn : string)
           (transform : option (S3Reader -> result Any))
  : M World S3IterableDataset :=
  __init__ rgn (partial get_objects_from_uris object_uris) transform.

Definition from_prefix (s3_uri : string) (rgn : string)
           (transform : option (S3Reader -> result Any))
  : M World S3IterableDataset :=
  __init__ rgn (partial get_objects_from_prefix s3_uri) transform.

End Constructors.

(** ** The helpers of [_s3dataset_common] *)

Module Common.

(** Modelled from the spec: [identity] is imported from
    [_s3dataset_common], which is not among the sources; the default
    transform passes the fetched object through unchanged. *)
Definition identity (r : S3Reader) : result Any := Ok (AnyReader r).

(** Modelled from the spec: URI parsing is not among the sources; a URI
    names a bucket and a key, [s3://bucket/key]. *)
Definition parse_s3_uri (uri : string) : option (string * string) :=
  if String.prefix "s3://" uri then
    let rest := substring 5 (String.length uri - 5) uri in
    match index 0 "/" rest with
    | Some i =>
        Some (substring 0 i rest, substring (S i) (String.length rest - S i) rest)
    | None => Some (rest, "")
    end
  else None.

Definition parse_object_uri (uri : string) : result S3BucketKey :=
  match parse_s3_uri uri with
  | Some (b, k) =>
      if String.eqb b "" || String.eqb k "" then Err (InvalidSpecification uri)
      else Ok (mkBucketKey b k)
  | None => Err (InvalidSpecification uri)
  end.

Fixpoint parse_all (uris : list string) : result (list S3BucketKey) :=
  match uris with
  | [] => Ok []
  | u :: us =>
      match parse_object_uri u with
      | Ok bk =>
          match parse_all us with
          | Ok l => Ok (bk :: l)
          | Err e => Err e
          end
      | Err e => Err e
      end
  end.

Definition uris_selected (uris : list string) : result Iterable :=
  match parse_all uris with
  | Ok l => Ok (of_list l)
  | Err e => Err e
  end.

(** What parsing [uris] one by one leaves unread: the URIs after the first
    malformed one. *)
Fixpoint unread (uris : list string) : list string :=
  match uris with
  | [] => []
  | u :: us =>
      match parse_object_uri u with
      | Ok _ => unread us
      | Err _ => us
      end
  end.

Fixpoint left_in (ref : nat) (k : Iterators) : list string :=
  match k with
  | [] => []
  | (r, l) :: k' => if Nat.eqb r ref then l else left_in ref k'
  end.

Fixpoint put_back (ref : nat) (l : list string) (k : Iterators) : Iterators :=
  match k with
  | [] => []
  | (r, l0) :: k' => if Nat.eqb r ref then (r, l) :: k' else (r, l0) :: put_back ref l k'
  end.

(** Modelled from the spec: [get_objects_from_uris] is not among the
    sources; every URI is parsed when the selector is built, in input
    order, duplicates kept, and a malformed one is an
    [InvalidSpecification].  A string and a collection are read without
    being changed; a one-shot iterator is read by using it up. *)
Definition get_objects_from_uris (object_uris : ObjectUris) (c : S3Client)
  : M Iterators Iterable :=
  match object_uris with
  | OneUri u => of_result (uris_selected [u])
  | ManyUris us => of_result (uris_selected us)
  | UriIterator ref =>
      fun k => (uris_selected (left_in ref k), put_back ref (unread (left_in ref k)) k)
  end.

(** Modelled from the spec: [get_objects_from_prefix] is not among the
    sources; the listing is requested when the sequence is first pulled
    and yields the keys under the prefix in the order the store reports. *)
Definition get_objects_from_prefix (s3_uri : string) (c : S3Client)
  : M Iterators Iterable :=
  of_result
    match parse_s3_uri s3_uri with
    | Some (b, p) =>
        if String.eqb b "" then Err (InvalidSpecification s3_uri)
        else Ok (Listing c b p (fun keys => of_list (map (mkBucketKey b) keys)))
    | None => Err (InvalidSpecification s3_uri)
    end.

End Common.

(** ** Operations a caller can make on a dataset *)

Inductive Op : Type :=
| OpRegion
| OpGetClient
| OpGetTransformedObject (bk : S3BucketKey)
| OpIter
| OpNext (m : Iterable)
| OpTraverse.

Definition exec (o : Op) (h : Heap) : Heap :=
  match o with
  | OpRegion => snd (region h)
  | OpGetClient => snd (_get_client h)
  | OpGetTransformedObject bk => snd (_get_transformed_object bk h)
  | OpIter => snd (__iter__ h)
  | OpNext m => snd (map_next m h)
  | OpTraverse => snd (traverse h)
  end.

Definition exec_all (ops : list Op) (h : Heap) : Heap := fold_left (fun h o => exec o h) ops h.

(** The operations that call [_get_client] whatever the state: the method
    itself, [_get_transformed_object], [__iter__] and a loop. *)
Definition needs_client (o : Op) : bool :=
  match o with
  | OpGetClient | OpGetTransformedObject _ | OpIter | OpTraverse => true
  | OpRegion | OpNext _ => false
  end.

(** ** Reading the trace *)

(** The keys requested, one entry per request. *)
Definition fetched (tr : list Event) : list S3BucketKey :=
  flat_map (fun e => match e with GetObject _ bk _ => [bk] | _ => [] end) tr.

(** The keys whose request was answered with a reader. *)
Definition opened (tr : list Event) : list S3BucketKey :=
  flat_map (fun e => match e with GetObject _ bk true => [bk] | _ => [] end) tr.

(** The keys whose reader was passed to the transform. *)
Definition transformed (tr : list Event) : list S3BucketKey :=
  flat_map (fun e => match e with Transform bk => [bk] | _ => [] end) tr.

Definition listed (tr : list Event) : list (string * string) :=
  flat_map (fun e => match e with ListObjects _ b p => [(b, p)] | _ => [] end) tr.

Definition clients (tr : list Event) : list S3Client :=
  flat_map (fun e => match e with NewClient c => [c] | _ => [] end) tr.

(** Readers handed out by the store and not yet passed on to the transform. *)
Definition in_flight (tr : list Event) : nat :=
  length (opened tr) - length (transformed tr).

(** * Specification vocabulary *)

(** The dataset with its client attribute set. *)
Definition with_client (ds : S3IterableDataset) (c : S3Client) : S3IterableDataset :=
  mkDataset (_get_dataset_objects ds) (_transform ds) (_region ds) (Some c).

(** ** What a method may change

    [evolves h h'] relates the heap before a method to the heap after it: the
    three configuration attributes and the store are the same, and the
    client attribute is either unchanged or was unset and now holds the one
    handle created meanwhile. *)
Record evolves (h h' : Heap) : Prop :=
  mkEvolves
    { ev_objects : _get_dataset_objects (self h') = _get_dataset_objects (self h);
      ev_transform : _transform (self h') = _transform (self h);
      ev_region : _region (self h') = _region (self h);
      ev_store : store (world h') = store (world h);
      ev_client :
        match _client (self h) with
        | Some c =>
            _client (self h') = Some c
            /\ clients_created (world h') = clients_created (world h)
            /\ clients (trace (world h')) = clients (trace (world h))
        | None =>
            (_client (self h') = None
             /\ clients_created (world h') = clients_created (world h)
             /\ clients (trace (world h')) = clients (trace (world h)))
            \/
            (let c := mkClient (_region (self h)) (clients_created (world h)) in
             _client (self h') = Some c
             /\ clients_created (world h') = S (clients_created (world h))
             /\ clients (trace (world h')) = clients (trace (world h)) ++ [c])
        end }.

(** A method [frames] the dataset when every run of it [evolves] the heap. *)
Definition frames {A : Type} (m : M Heap A) : Prop := forall h, evolves h (snd (m h)).

(** A client call is [quiet] when it creates no handle and leaves the store. *)
Definition quiet {A : Type} (m : M World A) : Prop :=
  forall w, store (snd (m w)) = store w
            /\ clients_created (snd (m w)) = clients_created w
            /\ clients (trace (snd (m w))) = clients (trace w).

(** ** The loop over the elements

    [outline f g ids] is the loop written over the list of keys: the items
    received, the exception that ended the loop, the keys requested and the
    keys passed to the transform. *)
Fixpoint outline (f : S3Reader -> result Any) (g : S3BucketKey -> result S3Reader)
         (ids : list S3BucketKey)
  : list Any * option exn * list S3BucketKey * list S3BucketKey :=
  match ids with
  | [] => ([], None, [], [])
  | id :: ids' =>
      match g id with
      | Err e => ([], stop_cause e, [id], [])
      | Ok r =>
          match f r with
          | Err e => ([], stop_cause e, [id], [id])
          | Ok x =>
              let '(xs, oe, req, hnd) := outline f g ids' in
              (x :: xs, oe, id :: req, id :: hnd)
          end
      end
  end.

(** [emits f g id x]: key [id] is answered with a reader that [f] turns
    into [x]. *)
Definition emits (f : S3Reader -> result Any) (g : S3BucketKey -> result S3Reader)
           (id : S3BucketKey) (x : Any) : Prop :=
  exists r : S3Reader, g id = Ok r /\ f r = Ok x.

(** A run of events is [paced] when, at each point of it, every reader the
    store has handed out has been passed to the transform, but possibly the
    last one, and at its end none is outstanding. *)
Definition paced (d : list Event) : Prop :=
  length (opened d) = length (transformed d)
  /\ forall p q : list Event,
      d = p ++ q ->
      length (transformed p) <= length (opened p) <= length (transformed p) + 1.

(** [selected h c]: what the selection callable of the dataset returns,
    and what it leaves of the caller's objects, when it is applied to [c]
    in the world of [h]. *)
Definition selected (h : Heap) (c : S3Client) : result Iterable * Iterators :=
  _get_dataset_objects (self h) c (iterators (world h)).

(** [requests_by c d]: every [get_object] request among the events [d] was
    made through the client [c]. *)
Definition requests_by (c : S3Client) (d : list Event) : Prop :=
  Forall (fun e => match e with GetObject c' _ _ => c' = c | _ => True end) d.

(** [served h h']: the events added between [h] and [h'] contain no
    [get_object] request but through the client of the dataset in [h]. *)
Definition served (h h' : Heap) : Prop :=
  exists d : list Event,
    trace (world h') = trace (world h) ++ d
    /\ forall c : S3Client, fst (_get_client h) = Ok c -> requests_by c d.

(** * A small store to run the definitions on *)

Module Demo.

Definition payload : list byte := list_byte_of_string "0123456789".

Definition a_bin : S3BucketKey := mkBucketKey "b" "a.bin".
Definition b_bin : S3BucketKey := mkBucketKey "b" "b.bin".

Definition st : Store := mkStore [(a_bin, payload); (b_bin, payload)] [].

Definition w0 : World := mkWorld st [] 0 [] [].

Definition client0 : S3Client := mkClient "us-east-1" 0.

Definition reader (bk : S3BucketKey) : S3Reader := mkReader (bucket bk) (key bk) payload.

Definition two_uris : ObjectUris := ManyUris ["s3://b/a.bin"; "s3://b/b.bin"].

(** The dataset [from_objects] returns for the two URIs, before any use. *)
Definition two_ds : S3IterableDataset :=
  mkDataset (partial Common.get_objects_from_uris two_uris) Common.identity "us-east-1" None.

Definition two : Heap := mkHeap two_ds w0.

(** The same dataset against a store that fails the next request for
    [b.bin] once, with a timeout, and answers it afterwards. *)
Definition flaky : Heap := mkHeap two_ds (mkWorld st [(b_bin, Timeout)] 0 [] []).

(** A transform that returns the body, and raises on [b.bin]. *)
Definition picky (r : S3Reader) : result Any :=
  if String.eqb (reader_key r) "b.bin" then Err (UserError "boom")
  else Ok (AnyBytes (reader_body r)).

Definition picky_heap : Heap :=
  mkHeap (mkDataset (partial Common.get_objects_from_uris two_uris) picky "us-east-1" None) w0.

(** A transform that raises [StopIteration] on [b.bin]. *)
Definition stopping (r : S3Reader) : result Any :=
  if String.eqb (reader_key r) "b.bin" then Err StopIteration
  else Ok (AnyBytes (reader_body r)).

Definition stopping_heap : Heap :=
  mkHeap (mkDataset (partial Common.get_objects_from_uris two_uris) stopping "us-east-1" None) w0.

(** Three keys, the transform stopping on the second. *)
Definition stopping_three : Heap :=
  mkHeap (mkDataset (fun _ => ret (of_list [a_bin; b_bin; a_bin])) stopping "us-east-1" None) w0.




(** A URI with no key. *)
Definition bucket_only : ObjectUris := ManyUris ["s3://b/a.bin"; "s3://bucket-only"].

Definition bucket_only_ds : S3IterableDataset :=
  mkDataset (partial Common.get_objects_from_uris bucket_only) Common.identity "us-east-1" None.

End Demo.

(** * Properties *)

(** ** The client handle *)

Lemma get_client_some (h : Heap) (c : S3Client) :
  _client (self h) = Some c -> _get_client h = (Ok c, h).
Proof.
  intros Hc. unfold _get_client, bind, gets. rewrite Hc. reflexivity.
Qed.

Lemma get_client_none (h : Heap) :
  _client (self h) = None ->
  let c := mkClient (_region (self h)) (clients_created (world h)) in
  _get_client h =
    (Ok c,
     mkHeap (with_client (self h) c)
            (mkWorld (store (world h)) (outages (world h))
                     (S (clients_created (world h)))
                     (trace (world h) ++ [NewClient c])
                     (iterators (world h)))).
Proof.
  intros Hc. unfold _get_client, bind, gets. rewrite Hc. reflexivity.
Qed.

Lemma bucket_key_eta (bk : S3BucketKey) : mkBucketKey (bucket bk) (key bk) = bk.
Proof. destruct bk; reflexivity. Qed.

(** With the handle in place, [_get_transformed_object] is one request and,
    when it is answered, one call of the transform. *)
Lemma get_transformed_object_eq (h : Heap) (c : S3Client) (bk : S3BucketKey) :
  _client (self h) = Some c ->
  _get_transformed_object bk h =
    match fetch_outcome (world h) bk with
    | Ok r =>
        (_transform (self h) r,
         mkHeap (self h) (log (Transform bk) (log (GetObject c bk true) (world h))))
    | Err e =>
        (Err e,
         mkHeap (self h)
                (mkWorld (store (world h)) (drop_key bk (outages (world h)))
                         (clients_created (world h))
                         (trace (world h) ++ [GetObject c bk false])
                         (iterators (world h))))
    end.
Proof.
  intros Hc. unfold _get_transformed_object.
  unfold bind at 1. unfold gets at 1.
  unfold bind at 1. rewrite (get_client_some h Hc).
  unfold bind at 1. unfold in_world at 1. unfold get_object.
  rewrite bucket_key_eta. cbn [world self].
  destruct (fetch_outcome (world h) bk) as [r | e]; reflexivity.
Qed.

Lemma fetch_outcome_ext (w w' : World) (bk : S3BucketKey) :
  store w' = store w -> outages w' = outages w ->
  fetch_outcome w' bk = fetch_outcome w bk.
Proof. intros Hs Ho. unfold fetch_outcome. rewrite Hs, Ho. reflexivity. Qed.

Lemma evolves_refl (h : Heap) : evolves h h.
Proof.
  constructor; try reflexivity.
  destruct (_client (self h)); [ | left ]; repeat split; reflexivity.
Qed.

Lemma evolves_trans (h1 h2 h3 : Heap) : evolves h1 h2 -> evolves h2 h3 -> evolves h1 h3.
Proof.
  intros [O1 T1 R1 S1 C1] [O2 T2 R2 S2 C2].
  constructor; try congruence.
  destruct (_client (self h1)) as [c | ].
  - destruct C1 as (E1 & N1 & L1). rewrite E1 in C2.
    destruct C2 as (E2 & N2 & L2). repeat split; congruence.
  - destruct C1 as [(E1 & N1 & L1) | (E1 & N1 & L1)]; rewrite E1 in C2.
    + destruct C2 as [(E2 & N2 & L2) | (E2 & N2 & L2)].
      * left. repeat split; congruence.
      * right. cbn zeta in *. rewrite R1, N1 in E2. repeat split; congruence.
    + destruct C2 as (E2 & N2 & L2). right. repeat split; congruence.
Qed.

Lemma frames_ret (A : Type) (a : A) : frames (ret a).
Proof. intros h. apply evolves_refl. Qed.

Lemma frames_gets (A : Type) (f : Heap -> A) : frames (gets f).
Proof. intros h. apply evolves_refl. Qed.

Lemma frames_of_result (A : Type) (r : result A) : frames (of_result r).
Proof. intros h. apply evolves_refl. Qed.

Lemma frames_bind (A B : Type) (m : M Heap A) (f : A -> M Heap B) :
  frames m -> (forall a, frames (f a)) -> frames (bind m f).
Proof.
  intros Hm Hf h. unfold bind. specialize (Hm h).
  destruct (m h) as [[a | e] h1]; cbn [snd] in *.
  - eapply evolves_trans; [ exact Hm | apply Hf ].
  - exact Hm.
Qed.

Lemma frames_in_world (A : Type) (m : M World A) : quiet m -> frames (in_world m).
Proof.
  intros Hq h. unfold in_world. specialize (Hq (world h)).
  destruct (m (world h)) as [r w']. cbn [snd] in *. destruct Hq as (Hs & Hn & Hl).
  constructor; cbn [self world]; try reflexivity; try assumption.
  destruct (_client (self h)); [ | left ]; repeat split; assumption.
Qed.

Lemma clients_app (t1 t2 : list Event) : clients (t1 ++ t2) = clients t1 ++ clients t2.
Proof. apply flat_map_app. Qed.

Lemma quiet_get_object (c : S3Client) (b k : string) : quiet (get_object c b k).
Proof.
  intros w. unfold get_object.
  destruct (fetch_outcome w (mkBucketKey b k)); cbn [snd log store clients_created trace];
    rewrite clients_app, app_nil_r; repeat split; reflexivity.
Qed.

Lemma quiet_list_objects (c : S3Client) (b p : string) : quiet (list_objects c b p).
Proof.
  intros w. unfold list_objects. cbn [snd log store clients_created trace].
  rewrite clients_app, app_nil_r. repeat split; reflexivity.
Qed.

Lemma quiet_log_transform (bk : S3BucketKey) : quiet (modify (log (Transform bk))).
Proof.
  intros w. unfold modify. cbn [snd log store clients_created trace].
  rewrite clients_app, app_nil_r. repeat split; reflexivity.
Qed.

Lemma frames_get_client : frames _get_client.
Proof.
  intros h. destruct (_client (self h)) as [c | ] eqn:Hc.
  - rewrite (get_client_some h Hc). apply evolves_refl.
  - rewrite (get_client_none h Hc). cbn [snd].
    constructor; cbn [self world with_client _get_dataset_objects _transform _region
                      _client store clients_created trace]; try reflexivity.
    rewrite Hc. right. cbn zeta. rewrite clients_app. repeat split; reflexivity.
Qed.

Lemma frames_region : frames region.
Proof. apply frames_gets. Qed.

Lemma frames_get_transformed_object (bk : S3BucketKey) : frames (_get_transformed_object bk).
Proof.
  unfold _get_transformed_object.
  apply frames_bind; [ apply frames_gets | intros f ].
  apply frames_bind; [ apply frames_get_client | intros c ].
  apply frames_bind; [ apply frames_in_world, quiet_get_object | intros r ].
  apply frames_bind; [ apply frames_in_world, quiet_log_transform | intros _ ].
  apply frames_of_result.
Qed.

Lemma quiet_in_iterators (A : Type) (m : M Iterators A) : quiet (in_iterators m).
Proof.
  intros w. unfold in_iterators. destruct (m (iterators w)) as [r k].
  repeat split; reflexivity.
Qed.

Lemma frames_iter : frames __iter__.
Proof.
  unfold __iter__.
  apply frames_bind; [ apply frames_gets | intros sel ].
  apply frames_bind; [ apply frames_get_client | intros c ].
  apply frames_in_world, quiet_in_iterators.
Qed.

Lemma evolves_next_key (m : Iterable) (s : S3IterableDataset) (w : World) :
  evolves (mkHeap s w) (mkHeap s (snd (next_key m w))).
Proof.
  revert w. induction m as [ | bk rest IH | e | c b p k IH ]; intros w; cbn [next_key snd];
    try apply evolves_refl.
  pose proof (frames_in_world (quiet_list_objects c b p) (mkHeap s w)) as Hl.
  unfold in_world in Hl. cbn [world self] in Hl.
  destruct (list_objects c b p w) as [[keys | e] w1]; cbn [snd] in *.
  - eapply evolves_trans; [ exact Hl | apply IH ].
  - exact Hl.
Qed.

Lemma evolves_map_next (m : Iterable) (h : Heap) : evolves h (snd (map_next m h)).
Proof.
  unfold map_next. pose proof (evolves_next_key m (self h) (world h)) as Hn.
  destruct h as [s w]. cbn [self world] in *.
  destruct (next_key m w) as [[[bk | e] m'] w1]; cbn [snd] in *.
  - pose proof (frames_get_transformed_object bk (mkHeap s w1)) as Hg.
    destruct (_get_transformed_object bk (mkHeap s w1)) as [r h']. cbn [snd] in *.
    eapply evolves_trans; eassumption.
  - exact Hn.
Qed.

Lemma evolves_consume (m : Iterable) (h : Heap) : evolves h (snd (consume m h)).
Proof.
  revert h. induction m as [ | bk rest IH | e | c b p k IH ]; intros h; cbn [consume snd];
    try apply evolves_refl.
  - pose proof (frames_get_transformed_object bk h) as Hg.
    destruct (_get_transformed_object bk h) as [[x | e] h1]; cbn [snd] in *.
    + specialize (IH h1). destruct (consume rest h1) as [[xs oe] h2]. cbn [snd] in *.
      eapply evolves_trans; eassumption.
    + exact Hg.
  - pose proof (frames_in_world (quiet_list_objects c b p) h) as Hl.
    destruct (in_world (list_objects c b p) h) as [[keys | e] h1]; cbn [snd] in *.
    + eapply evolves_trans; [ exact Hl | apply IH ].
    + exact Hl.
Qed.

Lemma evolves_traverse (h : Heap) : evolves h (snd (traverse h)).
Proof.
  unfold traverse. pose proof (frames_iter h) as Hi.
  destruct (__iter__ h) as [[m | e] h1]; cbn [snd] in *.
  - eapply evolves_trans; [ exact Hi | apply evolves_consume ].
  - exact Hi.
Qed.

Lemma evolves_exec (o : Op) (h : Heap) : evolves h (exec o h).
Proof.
  destruct o; cbn [exec].
  - apply frames_region.
  - apply frames_get_client.
  - apply frames_get_transformed_object.
  - apply frames_iter.
  - apply evolves_map_next.
  - apply evolves_traverse.
Qed.

Lemma evolves_exec_all (ops : list Op) (h : Heap) : evolves h (exec_all ops h).
Proof.
  revert h. induction ops as [ | o ops IH ]; intros h; cbn [exec_all fold_left].
  - apply evolves_refl.
  - eapply evolves_trans; [ apply evolves_exec | apply IH ].
Qed.

(** C10.  No operation changes the region, the transform or the selection
    callable, and a client handle, once stored, stays the stored handle:
    the client attribute is the only one that changes, and only from unset
    to set. *)
Theorem configuration_unchanged (ops : list Op) (h : Heap) :
  let h' := exec_all ops h in
  _region (self h') = _region (self h)
  /\ _transform (self h') = _transform (self h)
  /\ _get_dataset_objects (self h') = _get_dataset_objects (self h)
  /\ (forall c : S3Client, _client (self h) = Some c -> _client (self h') = Some c)
  /\ (forall (c : S3Client) (more : list Op),
         _client (self h') = Some c -> _client (self (exec_all more h')) = Some c).
Proof.
  intros h'.
  destruct (evolves_exec_all ops h) as [Ho Ht Hr _ Hc]. fold h' in Ho, Ht, Hr, Hc.
  repeat split; try assumption.
  - intros c E. rewrite E in Hc. apply Hc.
  - intros c more E.
    destruct (evolves_exec_all more h') as [_ _ _ _ Hc'].
    rewrite E in Hc'. apply Hc'.
Qed.

Lemma fetched_app (t1 t2 : list Event) : fetched (t1 ++ t2) = fetched t1 ++ fetched t2.
Proof. apply flat_map_app. Qed.

Lemma opened_app (t1 t2 : list Event) : opened (t1 ++ t2) = opened t1 ++ opened t2.
Proof. apply flat_map_app. Qed.

Lemma transformed_app (t1 t2 : list Event) :
  transformed (t1 ++ t2) = transformed t1 ++ transformed t2.
Proof. apply flat_map_app. Qed.

Lemma listed_app (t1 t2 : list Event) : listed (t1 ++ t2) = listed t1 ++ listed t2.
Proof. apply flat_map_app. Qed.

Ltac read_trace :=
  cbn [world self trace log store outages clients_created];
  repeat rewrite ?fetched_app, ?opened_app, ?transformed_app, ?listed_app, ?clients_app;
  cbn [fetched opened transformed listed clients flat_map app];
  repeat rewrite ?app_nil_r, <- ?app_assoc;
  cbn [app].

(** The [for] loop over an iterable that can be pulled to its end does what
    [outline] does over its elements. *)
Lemma consume_outline (m : Iterable) :
  forall (ids : list S3BucketKey) (h : Heap) (c : S3Client)
         (items : list Any) (oe : option exn) (req hnd : list S3BucketKey),
    elements (store (world h)) m = Ok ids ->
    _client (self h) = Some c ->
    outline (_transform (self h)) (fetch_outcome (world h)) ids = (items, oe, req, hnd) ->
    exists h' : Heap,
      consume m h = (items, oe, h')
      /\ self h' = self h
      /\ store (world h') = store (world h)
      /\ fetched (trace (world h')) = fetched (trace (world h)) ++ req
      /\ transformed (trace (world h')) = transformed (trace (world h)) ++ hnd.
Proof.
  induction m as [ | bk rest IH | e | c0 b p k IH ];
    intros ids h c items oe req hnd Hel Hc Hout; cbn [elements] in Hel.
  - inversion Hel; subst ids. cbn [outline] in Hout. inversion Hout; subst.
    exists h. cbn [consume]. rewrite !app_nil_r. repeat split; reflexivity.
  - destruct (elements (store (world h)) rest) as [ids' | e'] eqn:Hr; [ | discriminate ].
    inversion Hel; subst ids. cbn [outline] in Hout. cbn [consume].
    rewrite (get_transformed_object_eq h bk Hc).
    destruct (fetch_outcome (world h) bk) as [r | e] eqn:Hf.
    + destruct (_transform (self h) r) as [x | e] eqn:Ht.
      * destruct (outline (_transform (self h)) (fetch_outcome (world h)) ids')
          as [[[xs oe'] req'] hnd'] eqn:Ho.
        inversion Hout; subst.
        set (h1 := mkHeap (self h) (log (Transform bk) (log (GetObject c bk true) (world h)))).
        destruct (IH ids' h1 c xs oe req' hnd') as (h' & Hcons & Hs & Hst & Hfe & Htr).
        -- exact Hr.
        -- exact Hc.
        -- rewrite <- Ho. f_equal. 
        -- exists h'. rewrite Hcons. repeat split; try assumption.
           ++ rewrite Hfe. unfold h1. read_trace. reflexivity.
           ++ rewrite Htr. unfold h1. read_trace. reflexivity.
      * inversion Hout; subst. eexists. split; [ reflexivity | ].
        repeat split; read_trace; reflexivity.
    + inversion Hout; subst. eexists. split; [ reflexivity | ].
      repeat split; read_trace; reflexivity.
  - discriminate.
  - destruct (listing_outcome (store (world h)) b p) as [keys | e'] eqn:Hl; [ | discriminate ].
    cbn [consume]. unfold in_world, list_objects. rewrite Hl.
    set (h1 := mkHeap (self h) (log (ListObjects c0 b p) (world h))).
    destruct (IH keys ids h1 c items oe req hnd) as (h' & Hcons & Hs & Hst & Hfe & Htr);
      try assumption.
    exists h'. rewrite Hcons. repeat split; try assumption.
    + rewrite Hfe. unfold h1. read_trace. reflexivity.
    + rewrite Htr. unfold h1. read_trace. reflexivity.
Qed.

Lemma outline_all_ok (f : S3Reader -> result Any) (g : S3BucketKey -> result S3Reader)
      (ids : list S3BucketKey) :
  Forall (fun id => exists x, emits f g id x) ids ->
  exists items : list Any,
    outline f g ids = (items, None, ids, ids) /\ Forall2 (emits f g) ids items.
Proof.
  induction 1 as [ | id ids (x & r & Hg & Hf) _ (items & Ho & Hall) ].
  - exists []. split; [ reflexivity | constructor ].
  - exists (x :: items). cbn [outline]. rewrite Hg, Hf, Ho. split; [ reflexivity | ].
    constructor; [ exists r; split; assumption | exact Hall ].
Qed.

Lemma outline_fetch_error (f : S3Reader -> result Any) (g : S3BucketKey -> result S3Reader)
      (pre : list S3BucketKey) (id : S3BucketKey) (post : list S3BucketKey)
      (items : list Any) (e : exn) :
  Forall2 (emits f g) pre items ->
  g id = Err e ->
  outline f g (pre ++ id :: post) = (items, stop_cause e, pre ++ [id], pre).
Proof.
  intros Hpre Hid. induction Hpre as [ | i x pre items (r & Hg & Hf) _ IH ]; cbn [app outline].
  - rewrite Hid. reflexivity.
  - rewrite Hg, Hf, IH. reflexivity.
Qed.

Lemma outline_transform_error (f : S3Reader -> result Any) (g : S3BucketKey -> result S3Reader)
      (pre : list S3BucketKey) (id : S3BucketKey) (post : list S3BucketKey)
      (items : list Any) (r : S3Reader) (e : exn) :
  Forall2 (emits f g) pre items ->
  g id = Ok r ->
  f r = Err e ->
  outline f g (pre ++ id :: post) = (items, stop_cause e, pre ++ [id], pre ++ [id]).
Proof.
  intros Hpre Hid He. induction Hpre as [ | i x pre items (r' & Hg & Hf) _ IH ]; cbn [app outline].
  - rewrite Hid, He. reflexivity.
  - rewrite Hg, Hf, IH. reflexivity.
Qed.

(** [__iter__] first makes sure of the client: afterwards the handle is
    stored, and nothing but the handle and its creation record changed. *)
Lemma get_client_ready (h : Heap) :
  exists (c : S3Client) (h1 : Heap),
    _get_client h = (Ok c, h1)
    /\ _client (self h1) = Some c
    /\ _transform (self h1) = _transform (self h)
    /\ _get_dataset_objects (self h1) = _get_dataset_objects (self h)
    /\ store (world h1) = store (world h)
    /\ outages (world h1) = outages (world h)
    /\ (exists d, trace (world h1) = trace (world h) ++ d
                  /\ fetched d = [] /\ opened d = [] /\ transformed d = [] /\ listed d = []).
Proof.
  destruct (_client (self h)) as [c | ] eqn:Hc.
  - exists c, h. rewrite (get_client_some h Hc).
    repeat split; try assumption. exists []. rewrite app_nil_r. repeat split; reflexivity.
  - eexists. eexists. rewrite (get_client_none h Hc). cbn zeta.
    split; [ reflexivity | ]. cbn [self world with_client _client _transform
                                   _get_dataset_objects store outages trace].
    repeat split. eexists. split; [ reflexivity | ]. repeat split; reflexivity.
Qed.

(** [__iter__] makes sure of the client and applies the selection callable
    to it; the loop then runs on the iterable returned.  Nothing is
    requested meanwhile. *)
Lemma iter_ready (h : Heap) :
  exists (c : S3Client) (g : Heap),
    fst (_get_client h) = Ok c
    /\ __iter__ h = (fst (selected h c), g)
    /\ traverse h = match fst (selected h c) with
                    | Ok m => consume m g
                    | Err e => ([], Some e, g)
                    end
    /\ _client (self g) = Some c
    /\ self g = self (snd (_get_client h))
    /\ _transform (self g) = _transform (self h)
    /\ store (world g) = store (world h)
    /\ outages (world g) = outages (world h)
    /\ iterators (world g) = snd (selected h c)
    /\ (exists d, trace (world g) = trace (world h) ++ d
                  /\ fetched d = [] /\ opened d = [] /\ transformed d = [] /\ listed d = []).
Proof.
  unfold traverse, __iter__, selected.
  destruct (_client (self h)) as [c | ] eqn:Hc.
  - exists c. unfold bind at 1 3. unfold gets at 1 2. unfold bind at 1 2.
    rewrite (get_client_some h Hc). unfold in_world, in_iterators. cbn [fst snd world self].
    destruct (_get_dataset_objects (self h) c (iterators (world h))) as [r k].
    eexists. split; [ reflexivity | ]. split; [ reflexivity | ].
    cbn [fst snd self world with_iterators store outages trace iterators].
    split; [ destruct r; reflexivity | ].
    repeat split; try assumption.
    exists []. rewrite app_nil_r. repeat split; reflexivity.
  - exists (mkClient (_region (self h)) (clients_created (world h))).
    unfold bind at 1 3. unfold gets at 1 2. unfold bind at 1 2.
    rewrite (get_client_none h Hc). cbn zeta. unfold in_world, in_iterators.
    cbn [fst snd world self iterators].
    destruct (_get_dataset_objects (self h) _ (iterators (world h))) as [r k].
    eexists. split; [ reflexivity | ]. split; [ reflexivity | ].
    cbn [fst snd self world with_iterators with_client store outages trace iterators
         _client _transform].
    split; [ destruct r; reflexivity | ].
    repeat split.
    eexists. split; [ reflexivity | ]. repeat split; reflexivity.
Qed.

Lemma fetch_outcome_error (w : World) (bk : S3BucketKey) (e : exn) :
  fetch_outcome w bk = Err e -> exists f : StoreFailure, e = S3Exception f.
Proof.
  unfold fetch_outcome.
  destruct (assoc_key bk (outages w)) as [f | ].
  - intros H; inversion H. exists f; reflexivity.
  - destruct (assoc_key bk (objects (store w))); intros H; inversion H.
    exists NotFound; reflexivity.
Qed.

(** C1 (amended).  When the selection callable returns an iterable that
    pulls to its end as [ids], every one of these keys is answered by the
    store and the transform returns on every reader, the loop over the dataset ends
    normally having received one item per key, in the order of [ids]: the
    k-th item is the transform of the reader of the k-th key, and the
    requests made are exactly [ids], each once. *)
Theorem traverse_in_selector_order
        (h : Heap) (c : S3Client) (m : Iterable) (ids : list S3BucketKey) :
  fst (_get_client h) = Ok c ->
  fst (selected h c) = Ok m ->
  elements (store (world h)) m = Ok ids ->
  Forall (fun id => exists x, emits (_transform (self h)) (fetch_outcome (world h)) id x) ids ->
  exists (items : list Any) (h' : Heap),
    traverse h = (items, None, h')
    /\ Forall2 (emits (_transform (self h)) (fetch_outcome (world h))) ids items
    /\ length items = length ids
    /\ fetched (trace (world h')) = fetched (trace (world h)) ++ ids
    /\ transformed (trace (world h')) = transformed (trace (world h)) ++ ids.
Proof.
  intros Hcl Hsel Hel Hall.
  destruct (iter_ready h)
    as (c1 & h1 & Hg & _ & Htrav & Hc1 & _ & Ht & Hst & Hou & _ & d & Hd & Df & _ & Dt & _).
  rewrite Hg in Hcl. inversion Hcl; subst c1.
  rewrite Htrav, Hsel.
  destruct (outline_all_ok Hall) as (items & Hout & Hf2).
  destruct (@consume_outline m ids h1 c items None ids ids) as (h' & Hcons & _ & _ & Hfe & Htr).
  - rewrite Hst. exact Hel.
  - exact Hc1.
  - rewrite Ht. rewrite <- Hout. f_equal.
    unfold fetch_outcome. rewrite Hst, Hou. reflexivity.
  - exists items, h'. split; [ exact Hcons | ]. split; [ exact Hf2 | ].
    split; [ symmetry; eapply Forall2_length; exact Hf2 | ].
    rewrite Hfe, Htr, Hd, fetched_app, transformed_app, Df, Dt, !app_nil_r.
    split; reflexivity.
Qed.

(** C7 (amended).  The dataset does not retry a failed fetch.  When the
    store answers the keys before [id] and fails the request for [id], with
    a transient failure or any other, the loop receives the items of the
    earlier keys and then the client's exception itself; [id] was requested
    once and no later key was requested. *)
Theorem fetch_error_not_retried
        (h : Heap) (c : S3Client) (m : Iterable)
        (pre : list S3BucketKey) (id : S3BucketKey) (post : list S3BucketKey) (e : exn) :
  fst (_get_client h) = Ok c ->
  fst (selected h c) = Ok m ->
  elements (store (world h)) m = Ok (pre ++ id :: post) ->
  Forall (fun i => exists x, emits (_transform (self h)) (fetch_outcome (world h)) i x) pre ->
  fetch_outcome (world h) id = Err e ->
  exists (items : list Any) (h' : Heap),
    traverse h = (items, Some e, h')
    /\ Forall2 (emits (_transform (self h)) (fetch_outcome (world h))) pre items
    /\ fetched (trace (world h')) = fetched (trace (world h)) ++ pre ++ [id]
    /\ transformed (trace (world h')) = transformed (trace (world h)) ++ pre.
Proof.
  intros Hcl Hsel Hel Hall Hid.
  destruct (iter_ready h)
    as (c1 & h1 & Hg & _ & Htrav & Hc1 & _ & Ht & Hst & Hou & _ & d & Hd & Df & _ & Dt & _).
  rewrite Hg in Hcl. inversion Hcl; subst c1.
  rewrite Htrav, Hsel.
  destruct (outline_all_ok Hall) as (items & _ & Hf2).
  pose proof (outline_fetch_error id post Hf2 Hid) as Hout.
  destruct (fetch_outcome_error _ _ Hid) as (f & ->). cbn [stop_cause] in Hout.
  destruct (@consume_outline m (pre ++ id :: post) h1 c items (Some (S3Exception f))
                             (pre ++ [id]) pre)
    as (h' & Hcons & _ & _ & Hfe & Htr).
  - rewrite Hst. exact Hel.
  - exact Hc1.
  - rewrite Ht. rewrite <- Hout. f_equal.
    unfold fetch_outcome. rewrite Hst, Hou. reflexivity.
  - exists items, h'. split; [ exact Hcons | ]. split; [ exact Hf2 | ].
    rewrite Hfe, Htr, Hd, fetched_app, transformed_app, Df, Dt, !app_nil_r.
    split; reflexivity.
Qed.

(** C9 (amended).  An exception of the transform reaches the consumer as it
    was raised, with no wrapper and no identifier.  When the keys before
    [id] are fetched and transformed and the transform raises [e], other
    than [StopIteration], on the reader of [id], the loop receives the items
    of the earlier keys and then [e]; the transform was called once on [id]
    and no later key was requested. *)
Theorem transform_error_propagates
        (h : Heap) (c : S3Client) (m : Iterable)
        (pre : list S3BucketKey) (id : S3BucketKey) (post : list S3BucketKey)
        (r : S3Reader) (e : exn) :
  fst (_get_client h) = Ok c ->
  fst (selected h c) = Ok m ->
  elements (store (world h)) m = Ok (pre ++ id :: post) ->
  Forall (fun i => exists x, emits (_transform (self h)) (fetch_outcome (world h)) i x) pre ->
  fetch_outcome (world h) id = Ok r ->
  _transform (self h) r = Err e ->
  e <> StopIteration ->
  exists (items : list Any) (h' : Heap),
    traverse h = (items, Some e, h')
    /\ Forall2 (emits (_transform (self h)) (fetch_outcome (world h))) pre items
    /\ fetched (trace (world h')) = fetched (trace (world h)) ++ pre ++ [id]
    /\ transformed (trace (world h')) = transformed (trace (world h)) ++ pre ++ [id].
Proof.
  intros Hcl Hsel Hel Hall Hid He Hne.
  destruct (iter_ready h)
    as (c1 & h1 & Hg & _ & Htrav & Hc1 & _ & Ht & Hst & Hou & _ & d & Hd & Df & _ & Dt & _).
  rewrite Hg in Hcl. inversion Hcl; subst c1.
  rewrite Htrav, Hsel.
  destruct (outline_all_ok Hall) as (items & _ & Hf2).
  pose proof (outline_transform_error id post Hf2 Hid He) as Hout.
  assert (Hsc : stop_cause e = Some e) by (destruct e; try reflexivity; contradiction).
  rewrite Hsc in Hout.
  destruct (@consume_outline m (pre ++ id :: post) h1 c items (Some e)
                             (pre ++ [id]) (pre ++ [id]))
    as (h' & Hcons & _ & _ & Hfe & Htr).
  - rewrite Hst. exact Hel.
  - exact Hc1.
  - rewrite Ht. rewrite <- Hout. f_equal.
    unfold fetch_outcome. rewrite Hst, Hou. reflexivity.
  - exists items, h'. split; [ exact Hcons | ]. split; [ exact Hf2 | ].
    rewrite Hfe, Htr, Hd, fetched_app, transformed_app, Df, Dt, !app_nil_r.
    split; reflexivity.
Qed.

(** ** Two runs against the same store *)


(** ** One request at a time *)

Lemma paced_silent (d : list Event) : opened d = [] -> transformed d = [] -> paced d.
Proof.
  intros Ho Ht. split; [ rewrite Ho, Ht; reflexivity | ].
  intros p q E. subst d. rewrite opened_app in Ho. rewrite transformed_app in Ht.
  apply app_eq_nil in Ho. apply app_eq_nil in Ht.
  destruct Ho as [-> _]. destruct Ht as [-> _]. cbn. lia.
Qed.

Lemma paced_app (d1 d2 : list Event) : paced d1 -> paced d2 -> paced (d1 ++ d2).
Proof.
  intros [E1 P1] [E2 P2]. split.
  - rewrite opened_app, transformed_app, !length_app. lia.
  - intros p q E. apply app_eq_app in E. destruct E as (l & [[-> ->] | [-> ->]]).
    + apply (P1 p l). reflexivity.
    + specialize (P2 l q eq_refl).
      rewrite opened_app, transformed_app, !length_app. lia.
Qed.

Lemma paced_fetch_transform (c : S3Client) (bk : S3BucketKey) :
  paced [GetObject c bk true; Transform bk].
Proof.
  split; [ reflexivity | ].
  intros p q E. destruct p as [ | e1 [ | e2 [ | e3 p ] ] ]; cbn in E.
  - cbn. lia.
  - inversion E; subst. cbn. lia.
  - inversion E; subst. cbn. lia.
  - inversion E.
Qed.

Lemma consume_paced (m : Iterable) :
  forall (h : Heap) (c : S3Client),
    _client (self h) = Some c ->
    exists d : list Event,
      trace (world (snd (consume m h))) = trace (world h) ++ d /\ paced d.
Proof.
  induction m as [ | bk rest IH | e | c0 b p k IH ]; intros h c Hc; cbn [consume].
  - exists []. rewrite app_nil_r. split; [ reflexivity | apply paced_silent; reflexivity ].
  - rewrite (get_transformed_object_eq h bk Hc).
    destruct (fetch_outcome (world h) bk) as [r | e].
    + set (h1 := mkHeap (self h) (log (Transform bk) (log (GetObject c bk true) (world h)))).
      assert (Ht1 : trace (world h1) = trace (world h) ++ [GetObject c bk true; Transform bk])
        by (unfold h1; cbn [world log trace]; rewrite <- app_assoc; reflexivity).
      destruct (_transform (self h) r) as [x | e].
      * destruct (IH h1 c Hc) as (d & Hd & Pd).
        destruct (consume rest h1) as [[xs oe] h2]. cbn [snd] in *.
        exists ([GetObject c bk true; Transform bk] ++ d).
        split; [ rewrite Hd, Ht1, <- app_assoc; reflexivity | ].
        apply paced_app; [ apply paced_fetch_transform | exact Pd ].
      * cbn [snd]. exists [GetObject c bk true; Transform bk].
        split; [ exact Ht1 | apply paced_fetch_transform ].
    + cbn [snd world trace]. exists [GetObject c bk false].
      split; [ reflexivity | apply paced_silent; reflexivity ].
  - exists []. rewrite app_nil_r. split; [ reflexivity | apply paced_silent; reflexivity ].
  - unfold in_world, list_objects.
    set (h1 := mkHeap (self h) (log (ListObjects c0 b p) (world h))).
    destruct (listing_outcome (store (world h)) b p) as [keys | e].
    + destruct (IH keys h1 c Hc) as (d & Hd & Pd).
      exists ([ListObjects c0 b p] ++ d).
      split; [ rewrite Hd; unfold h1; cbn [world log trace]; rewrite <- app_assoc; reflexivity | ].
      apply paced_app; [ apply paced_silent; reflexivity | exact Pd ].
    + cbn [snd]. exists [ListObjects c0 b p].
      split; [ reflexivity | apply paced_silent; reflexivity ].
Qed.

Lemma traverse_paced (h : Heap) :
  exists d : list Event,
    trace (world (snd (traverse h))) = trace (world h) ++ d /\ paced d.
Proof.
  destruct (iter_ready h)
    as (c & g & _ & _ & Htrav & Hc & _ & _ & _ & _ & _ & d0 & Hd0 & _ & Do & Dt & _).
  rewrite Htrav.
  destruct (fst (selected h c)) as [m | e].
  - destruct (consume_paced m g Hc) as (d & Hd & Pd).
    exists (d0 ++ d). split; [ rewrite Hd, Hd0, <- app_assoc; reflexivity | ].
    apply paced_app; [ apply paced_silent; assumption | exact Pd ].
  - cbn [snd]. exists d0. split; [ exact Hd0 | apply paced_silent; assumption ].
Qed.

(** C8.  The dataset has no window to configure: it fetches one object at a
    time.  At every point of a loop over the dataset at most one reader
    handed out by the store has not yet been passed to the transform, so
    the number in flight stays within any window [W] of at least one. *)
Theorem fetches_in_flight_bounded (W : nat) (h : Heap) (p q : list Event) :
  1 <= W ->
  trace (world (snd (traverse h))) = trace (world h) ++ p ++ q ->
  in_flight p <= W.
Proof.
  intros HW Htr. destruct (traverse_paced h) as (d & Hd & _ & Pd).
  rewrite Hd in Htr. apply app_inv_head in Htr.
  specialize (Pd p q Htr). unfold in_flight. lia.
Qed.

(** ** The loop is [next] until an exception *)

Lemma heap_eta (h : Heap) : mkHeap (self h) (world h) = h.
Proof. destruct h; reflexivity. Qed.

Lemma consume_unfold (m : Iterable) :
  forall h : Heap,
    consume m h =
      match map_next m h with
      | (Ok x, m', h') => let '(xs, oe, h'') := consume m' h' in (x :: xs, oe, h'')
      | (Err e, _, h') => ([], stop_cause e, h')
      end.
Proof.
  induction m as [ | bk rest IH | e | c b p k IH ]; intros h;
    unfold map_next; cbn [next_key consume].
  - rewrite heap_eta. reflexivity.
  - rewrite heap_eta. destruct (_get_transformed_object bk h) as [[x | e] h1]; reflexivity.
  - rewrite heap_eta. reflexivity.
  - unfold in_world. destruct (list_objects c b p (world h)) as [[keys | e] w1].
    + rewrite IH. unfold map_next. cbn [self world]. reflexivity.
    + reflexivity.
Qed.

(** ** Construction does nothing but store its arguments *)

Lemma get_transformed_object_result (bk : S3BucketKey) (h : Heap) :
  fst (_get_transformed_object bk h) =
    match fetch_outcome (world h) bk with
    | Ok r => _transform (self h) r
    | Err e => Err e
    end.
Proof.
  destruct (_client (self h)) as [c | ] eqn:Hc.
  - rewrite (get_transformed_object_eq h bk Hc).
    destruct (fetch_outcome (world h) bk); reflexivity.
  - unfold _get_transformed_object.
    unfold bind at 1. unfold gets at 1. unfold bind at 1.
    rewrite (get_client_none h Hc). cbn zeta.
    unfold bind at 1. unfold in_world at 1. unfold get_object.
    rewrite bucket_key_eta. unfold fetch_outcome.
    cbn [world self store outages].
    destruct (assoc_key bk (outages (world h))) as [f | ]; [ reflexivity | ].
    destruct (assoc_key bk (objects (store (world h)))); reflexivity.
Qed.

Lemma get_transformed_object_ready (bk : S3BucketKey) (h g : Heap) (c : S3Client) :
  _get_client h = (Ok c, g) ->
  _client (self g) = Some c ->
  _transform (self g) = _transform (self h) ->
  _get_transformed_object bk h = _get_transformed_object bk g.
Proof.
  intros Hg Hc Ht. unfold _get_transformed_object.
  unfold bind at 1. unfold gets at 1. unfold bind at 1. rewrite Hg.
  symmetry. unfold bind at 1. unfold gets at 1. unfold bind at 1.
  rewrite (get_client_some g Hc), Ht. reflexivity.
Qed.

Lemma get_transformed_object_listed (bk : S3BucketKey) (h : Heap) :
  listed (trace (world (snd (_get_transformed_object bk h)))) = listed (trace (world h)).
Proof.
  destruct (get_client_ready h) as (c & g & Hg & Hc & Ht & _ & _ & _ & d & Hd & _ & _ & _ & Dl).
  rewrite (@get_transformed_object_ready bk h g c Hg Hc Ht), (get_transformed_object_eq g bk Hc).
  destruct (fetch_outcome (world g) bk); cbn [snd]; read_trace;
    rewrite Hd, listed_app, Dl, app_nil_r; reflexivity.
Qed.

Lemma next_key_listed (m : Iterable) :
  forall w : World,
    exists l : list (string * string),
      listed (trace (snd (next_key m w))) = listed (trace w) ++ l.
Proof.
  induction m as [ | bk rest IH | e | c b p k IH ]; intros w; cbn [next_key snd];
    try (exists []; rewrite app_nil_r; reflexivity).
  unfold list_objects.
  destruct (listing_outcome (store w) b p) as [keys | e].
  - destruct (IH keys (log (ListObjects c b p) w)) as (l & Hl).
    exists ((b, p) :: l). rewrite Hl. read_trace. reflexivity.
  - exists [(b, p)]. cbn [snd]. read_trace. reflexivity.
Qed.

(** C4 (amended).  [from_objects] parses nothing and raises nothing.  For
    every URI collection, also one from which the selection callable cannot
    be built, it returns a dataset, with no client and the world untouched;
    the error of the callable is raised by [__iter__], so the loop receives
    no item and requests no object. *)
Theorem from_objects_defers_errors
        (identity : S3Reader -> result Any)
        (get_objects_from_uris : ObjectUris -> S3Client -> M Iterators Iterable)
        (object_uris : ObjectUris) (rgn : string)
        (tf : option (S3Reader -> result Any)) (w : World) (e : exn) :
  (forall c : S3Client, fst (get_objects_from_uris object_uris c (iterators w)) = Err e) ->
  exists ds : S3IterableDataset,
    from_objects identity get_objects_from_uris object_uris rgn tf w = (Ok ds, w)
    /\ _client ds = None
    /\ fst (__iter__ (mkHeap ds w)) = Err e
    /\ exists h' : Heap,
        traverse (mkHeap ds w) = ([], Some e, h')
        /\ fetched (trace (world h')) = fetched (trace w)
        /\ listed (trace (world h')) = listed (trace w).
Proof.
  intros Hbad. eexists. split; [ reflexivity | ]. split; [ reflexivity | ].
  set (ds := mkDataset _ _ _ _).
  destruct (iter_ready (mkHeap ds w))
    as (c & g & _ & Hit & Htrav & _ & _ & _ & _ & _ & _ & d & Hd & Df & _ & _ & Dl).
  assert (Hsel : fst (selected (mkHeap ds w) c) = Err e) by apply Hbad.
  split.
  - rewrite Hit. exact Hsel.
  - exists g. rewrite Htrav, Hsel. split; [ reflexivity | ].
    rewrite Hd. cbn [world]. rewrite fetched_app, listed_app, Df, Dl, !app_nil_r.
    split; reflexivity.
Qed.

(** C5.  A dataset built without a transform, by [__init__], [from_objects]
    or [from_prefix], holds [identity] as its transform, keeps it through
    every operation, and [_get_transformed_object] then returns the very
    reader [get_object] returned, or raises what [get_object] raised. *)
Theorem default_transform_is_identity
        (uris_helper : ObjectUris -> S3Client -> M Iterators Iterable)
        (prefix_helper : string -> S3Client -> M Iterators Iterable)
        (sel : S3Client -> M Iterators Iterable) (object_uris : ObjectUris) (s3_uri : string)
        (rgn : string) (w : World) (ops : list Op) (bk : S3BucketKey) :
  let ds := mkDataset sel Common.identity rgn None in
  __init__ Common.identity rgn sel None w = (Ok ds, w)
  /\ from_objects Common.identity uris_helper object_uris rgn None w
     = (Ok (mkDataset (partial uris_helper object_uris) Common.identity rgn None), w)
  /\ from_prefix Common.identity prefix_helper s3_uri rgn None w
     = (Ok (mkDataset (partial prefix_helper s3_uri) Common.identity rgn None), w)
  /\ let h := exec_all ops (mkHeap ds w) in
     _transform (self h) = Common.identity
     /\ fst (_get_transformed_object bk h) =
          match fetch_outcome (world h) bk with
          | Ok r => Ok (AnyReader r)
          | Err e => Err e
          end.
Proof.
  intros ds. repeat split.
  - destruct (evolves_exec_all ops (mkHeap ds w)) as [_ Ht _ _ _]. exact Ht.
  - rewrite get_transformed_object_result.
    destruct (evolves_exec_all ops (mkHeap ds w)) as [_ Ht _ _ _]. rewrite Ht.
    destruct (fetch_outcome _ bk); reflexivity.
Qed.

(** C6.  [from_prefix] touches neither the store nor the client: it returns
    a dataset holding the deferred call, with no client, in the world it was
    given.  [__iter__] is what applies the deferred call, to the client it
    creates, and it lists nothing either; when the iterable is a listing,
    its request is made by the first [next]. *)
Theorem from_prefix_defers_listing
        (identity : S3Reader -> result Any)
        (get_objects_from_prefix : string -> S3Client -> M Iterators Iterable)
        (s3_uri : string) (rgn : string)
        (tf : option (S3Reader -> result Any)) (w : World) :
  let ds := mkDataset (partial get_objects_from_prefix s3_uri) (default identity tf) rgn None in
  let started := __iter__ (mkHeap ds w) in
  from_prefix identity get_objects_from_prefix s3_uri rgn tf w = (Ok ds, w)
  /\ _client ds = None
  /\ fst started
     = fst (get_objects_from_prefix s3_uri (mkClient rgn (clients_created w)) (iterators w))
  /\ trace (world (snd started)) = trace w ++ [NewClient (mkClient rgn (clients_created w))]
  /\ (forall (c : S3Client) (b p : string) (k : list string -> Iterable),
         fst started = Ok (Listing c b p k) ->
         exists more : list (string * string),
           listed (trace (world (snd (map_next (Listing c b p k) (snd started)))))
           = listed (trace w) ++ (b, p) :: more).
Proof.
  intros ds started.
  set (c0 := mkClient rgn (clients_created w)).
  assert (Hs : started
               = (fst (get_objects_from_prefix s3_uri c0 (iterators w)),
                  mkHeap (with_client ds c0)
                         (mkWorld (store w) (outages w) (S (clients_created w))
                                  (trace w ++ [NewClient c0])
                                  (snd (get_objects_from_prefix s3_uri c0 (iterators w)))))).
  { unfold started, __iter__. unfold bind at 1. unfold gets at 1. unfold bind at 1.
    rewrite (@get_client_none (mkHeap ds w) eq_refl). cbn zeta.
    unfold in_world, in_iterators. cbn [self world iterators _get_dataset_objects ds _region
                                        clients_created].
    unfold partial. fold c0.
    destruct (get_objects_from_prefix s3_uri c0 (iterators w)) as [r k]. reflexivity. }
  rewrite Hs. cbn [fst snd world trace].
  split; [ reflexivity | ]. split; [ reflexivity | ]. split; [ reflexivity | ].
  split; [ reflexivity | ].
  intros c b p k _. unfold map_next. cbn [next_key self world]. unfold list_objects.
  set (w1 := log (ListObjects c b p) _).
  assert (Hw1 : listed (trace w1) = listed (trace w) ++ [(b, p)])
    by (unfold w1; read_trace; reflexivity).
  destruct (listing_outcome _ b p) as [keys | e].
  - destruct (next_key_listed (k keys) w1) as (l & Hl).
    destruct (next_key (k keys) w1) as [[[bk | e] m'] w2]; cbn [snd] in *.
    + pose proof (get_transformed_object_listed bk (mkHeap (with_client ds c0) w2)) as Hg.
      destruct (_get_transformed_object bk _) as [r h']. cbn [snd world] in *.
      exists l. rewrite Hg, Hl, Hw1, <- app_assoc. reflexivity.
    + exists l. cbn [world]. rewrite Hl, Hw1, <- app_assoc. reflexivity.
  - exists []. cbn [snd world]. exact Hw1.
Qed.

(** * The definitions at work *)

(** The scenario of two objects of ten bytes: two items, in the order of
    the URIs, each the reader of its object. *)
Example two_objects_in_order :
  from_objects Common.identity Common.get_objects_from_uris Demo.two_uris "us-east-1" None Demo.w0
  = (Ok Demo.two_ds, Demo.w0)
  /\ fst (traverse Demo.two)
     = ([AnyReader (Demo.reader Demo.a_bin); AnyReader (Demo.reader Demo.b_bin)], None)
  /\ map (fun x => match x with AnyReader r => length (reader_body r) | _ => 0 end)
         (fst (fst (traverse Demo.two))) = [10; 10].
Proof. repeat split. Qed.

(** A prefix that matches no key: the empty sequence, and no exception. *)
Example empty_prefix_is_empty :
  exists ds : S3IterableDataset,
    from_prefix Common.identity Common.get_objects_from_prefix "s3://b/data/" "us-east-1" None
                Demo.w0 = (Ok ds, Demo.w0)
    /\ fst (traverse (mkHeap ds Demo.w0)) = ([], None)
    /\ listed (trace (world (snd (traverse (mkHeap ds Demo.w0))))) = [("b", "data/")].
Proof. eexists. repeat split. Qed.

(** The listing of a prefix dataset is requested by the first [next], not
    by [__iter__]. *)
Example prefix_listing_on_first_next :
  exists ds : S3IterableDataset,
    from_prefix Common.identity Common.get_objects_from_prefix "s3://b/" "us-east-1" None
                Demo.w0 = (Ok ds, Demo.w0)
    /\ listed (trace (world (snd (__iter__ (mkHeap ds Demo.w0))))) = []
    /\ match __iter__ (mkHeap ds Demo.w0) with
       | (Ok m, h1) =>
           fst (fst (map_next m h1)) = Ok (AnyReader (Demo.reader Demo.a_bin))
           /\ listed (trace (world (snd (map_next m h1)))) = [("b", "")]
       | (Err _, _) => False
       end.
Proof. eexists. repeat split. Qed.

(** After an exception of the transform the [map] object is still alive:
    a caller that goes on calling [next] gets the later items. *)
Example map_object_survives_exception :
  match __iter__ Demo.picky_heap with
  | (Ok m, h1) =>
      match map_next m h1 with
      | (r1, m1, h2) =>
          match map_next m1 h2 with
          | (r2, m2, h3) =>
              r1 = Ok (AnyBytes Demo.payload)
              /\ r2 = Err (UserError "boom")
              /\ fst (fst (map_next m2 h3)) = Err StopIteration
          end
      end
  | (Err _, _) => False
  end.
Proof. repeat split. Qed.

(** Witness of C1: the two-object dataset. *)
Lemma traverse_in_selector_order_witness :
  exists (items : list Any) (h' : Heap),
    traverse Demo.two = (items, None, h')
    /\ Forall2 (emits Common.identity (fetch_outcome Demo.w0)) [Demo.a_bin; Demo.b_bin] items
    /\ length items = 2
    /\ fetched (trace (world h')) = [Demo.a_bin; Demo.b_bin]
    /\ transformed (trace (world h')) = [Demo.a_bin; Demo.b_bin].
Proof.
  apply (@traverse_in_selector_order Demo.two Demo.client0
                                     (of_list [Demo.a_bin; Demo.b_bin])
                                     [Demo.a_bin; Demo.b_bin]).
  - reflexivity.
  - reflexivity.
  - reflexivity.
  - repeat constructor.
    + exists (AnyReader (Demo.reader Demo.a_bin)), (Demo.reader Demo.a_bin).
      split; reflexivity.
    + exists (AnyReader (Demo.reader Demo.b_bin)), (Demo.reader Demo.b_bin).
      split; reflexivity.
Defined.

(** Counterexample to C4: a URI without a key is accepted by
    [from_objects]; the error appears when the dataset is iterated. *)
Lemma malformed_uri_accepted_at_construction :
  Common.parse_object_uri "s3://bucket-only" = Err (InvalidSpecification "s3://bucket-only")
  /\ from_objects Common.identity Common.get_objects_from_uris Demo.bucket_only
                  "us-east-1" None Demo.w0
     = (Ok Demo.bucket_only_ds, Demo.w0)
  /\ fst (__iter__ (mkHeap Demo.bucket_only_ds Demo.w0))
     = Err (InvalidSpecification "s3://bucket-only").
Proof. repeat split. Qed.

(** Witness of C4 (amended): the same URIs. *)
Lemma from_objects_defers_errors_witness :
  exists ds : S3IterableDataset,
    from_objects Common.identity Common.get_objects_from_uris Demo.bucket_only
                 "us-east-1" None Demo.w0 = (Ok ds, Demo.w0)
    /\ _client ds = None
    /\ fst (__iter__ (mkHeap ds Demo.w0)) = Err (InvalidSpecification "s3://bucket-only")
    /\ exists h' : Heap,
        traverse (mkHeap ds Demo.w0) = ([], Some (InvalidSpecification "s3://bucket-only"), h')
        /\ fetched (trace (world h')) = fetched (trace Demo.w0)
        /\ listed (trace (world h')) = listed (trace Demo.w0).
Proof.
  apply (@from_objects_defers_errors Common.identity Common.get_objects_from_uris
                                     Demo.bucket_only "us-east-1" None Demo.w0
                                     (InvalidSpecification "s3://bucket-only")).
  intros c. reflexivity.
Defined.

(** Counterexample to C7: one timeout is pending for [b.bin], so a second
    request would be answered; the dataset requests [b.bin] once and the
    timeout reaches the consumer. *)
Lemma transient_failure_surfaces_unretried :
  outages (world Demo.flaky) = [(Demo.b_bin, Timeout)]
  /\ transient Timeout = true
  /\ fst (traverse Demo.flaky)
     = ([AnyReader (Demo.reader Demo.a_bin)], Some (S3Exception Timeout))
  /\ fetched (trace (world (snd (traverse Demo.flaky)))) = [Demo.a_bin; Demo.b_bin]
  /\ fetch_outcome (world (snd (traverse Demo.flaky))) Demo.b_bin
     = Ok (Demo.reader Demo.b_bin).
Proof. repeat split. Qed.

(** Witness of C7 (amended): the store with the pending timeout. *)
Lemma fetch_error_not_retried_witness :
  exists (items : list Any) (h' : Heap),
    traverse Demo.flaky = (items, Some (S3Exception Timeout), h')
    /\ Forall2 (emits Common.identity (fetch_outcome (world Demo.flaky))) [Demo.a_bin] items
    /\ fetched (trace (world h')) = [Demo.a_bin; Demo.b_bin]
    /\ transformed (trace (world h')) = [Demo.a_bin].
Proof.
  apply (@fetch_error_not_retried Demo.flaky Demo.client0
                                  (of_list [Demo.a_bin; Demo.b_bin])
                                  [Demo.a_bin] Demo.b_bin [] (S3Exception Timeout)).
  - reflexivity.
  - reflexivity.
  - reflexivity.
  - repeat constructor.
    exists (AnyReader (Demo.reader Demo.a_bin)), (Demo.reader Demo.a_bin).
    split; reflexivity.
  - reflexivity.
Defined.

(** Witness of C8: a window of eight, two events into the loop over the
    two-object dataset, when the first reader is out. *)
Lemma fetches_in_flight_bounded_witness :
  in_flight [NewClient Demo.client0; GetObject Demo.client0 Demo.a_bin true] = 1
  /\ in_flight [NewClient Demo.client0; GetObject Demo.client0 Demo.a_bin true] <= 8.
Proof.
  split; [ reflexivity | ].
  apply (@fetches_in_flight_bounded
           8 Demo.two
           [NewClient Demo.client0; GetObject Demo.client0 Demo.a_bin true]
           [Transform Demo.a_bin; GetObject Demo.client0 Demo.b_bin true;
            Transform Demo.b_bin]).
  - lia.
  - reflexivity.
Defined.

(** Counterexample to C9: the exception of the transform reaches the
    consumer bare, not inside a [TransformFailed] naming the object; and a
    [StopIteration] of the transform ends the loop with no exception. *)
Lemma transform_exception_not_wrapped :
  Demo.picky (Demo.reader Demo.b_bin) = Err (UserError "boom")
  /\ fst (traverse Demo.picky_heap) = ([AnyBytes Demo.payload], Some (UserError "boom"))
  /\ snd (fst (traverse Demo.picky_heap))
     <> Some (TransformFailed Demo.b_bin (UserError "boom"))
  /\ Demo.stopping (Demo.reader Demo.b_bin) = Err StopIteration
  /\ fst (traverse Demo.stopping_heap) = ([AnyBytes Demo.payload], None).
Proof. repeat split. discriminate. Qed.

(** Witness of C9 (amended): the transform that raises on [b.bin]. *)
Lemma transform_error_propagates_witness :
  exists (items : list Any) (h' : Heap),
    traverse Demo.picky_heap = (items, Some (UserError "boom"), h')
    /\ Forall2 (emits Demo.picky (fetch_outcome Demo.w0)) [Demo.a_bin] items
    /\ fetched (trace (world h')) = [Demo.a_bin; Demo.b_bin]
    /\ transformed (trace (world h')) = [Demo.a_bin; Demo.b_bin].
Proof.
  apply (@transform_error_propagates Demo.picky_heap Demo.client0
                                     (of_list [Demo.a_bin; Demo.b_bin])
                                     [Demo.a_bin] Demo.b_bin [] (Demo.reader Demo.b_bin)
                                     (UserError "boom")).
  - reflexivity.
  - reflexivity.
  - reflexivity.
  - repeat constructor.
    exists (AnyBytes Demo.payload), (Demo.reader Demo.a_bin). split; reflexivity.
  - reflexivity.
  - reflexivity.
  - discriminate.
Defined.

(** * Further properties of the methods *)

(** ** The region *)

(** X1.  The [region] property of a dataset built for region [rgn] reads
    [rgn] after any operations, and the client the dataset creates is a
    client for that region. *)
Theorem region_is_constructor_region
        (identity : S3Reader -> result Any) (rgn : string)
        (sel : S3Client -> M Iterators Iterable)
        (tf : option (S3Reader -> result Any)) (w : World) (ops : list Op) :
  let ds := mkDataset sel (default identity tf) rgn None in
  let h := exec_all ops (mkHeap ds w) in
  __init__ identity rgn sel tf w = (Ok ds, w)
  /\ region h = (Ok rgn, h)
  /\ (forall c : S3Client, _client (self h) = Some c -> client_region c = rgn)
  /\ (forall c : S3Client, In c (clients (trace (world h))) ->
                           In c (clients (trace w)) \/ client_region c = rgn).
Proof.
  intros ds h.
  destruct (evolves_exec_all ops (mkHeap ds w)) as [_ _ Hr _ Hc].
  fold h in Hr, Hc. cbn [self world _region _client ds] in Hr, Hc.
  split; [ reflexivity | ]. split; [ unfold region, gets; rewrite Hr; reflexivity | ].
  destruct Hc as [(Hn & _ & Hl) | (Hs & _ & Hl)]; split.
  - intros c E. congruence.
  - intros c Hin. left. rewrite <- Hl. exact Hin.
  - intros c E. rewrite Hs in E. inversion E. reflexivity.
  - intros c Hin. rewrite Hl in Hin. apply in_app_or in Hin.
    destruct Hin as [Hin | [<- | []]]; [ left; exact Hin | right; reflexivity ].
Qed.

(** ** One [next], one object *)

(** Pulling a key makes no [get_object] request and calls no transform: the
    only events it can add are listings. *)
Lemma next_key_quiet (m : Iterable) :
  forall w : World,
    store (snd (next_key m w)) = store w
    /\ outages (snd (next_key m w)) = outages w
    /\ exists d : list Event,
        trace (snd (next_key m w)) = trace w ++ d
        /\ fetched d = [] /\ opened d = [] /\ transformed d = [] /\ clients d = [].
Proof.
  induction m as [ | bk rest IH | e | c b p k IH ]; intros w; cbn [next_key snd];
    try (split; [ reflexivity | ]; split; [ reflexivity | ];
         exists []; rewrite app_nil_r; repeat split; reflexivity).
  unfold list_objects.
  destruct (listing_outcome (store w) b p) as [keys | e].
  - destruct (IH keys (log (ListObjects c b p) w)) as (Hs & Ho & d & Hd & Df & Dop & Dt & Dc).
    split; [ exact Hs | ]. split; [ exact Ho | ].
    exists ([ListObjects c b p] ++ d).
    split; [ rewrite Hd; cbn [log trace]; rewrite <- app_assoc; reflexivity | ].
    rewrite fetched_app, opened_app, transformed_app, clients_app, Df, Dop, Dt, Dc.
    repeat split; reflexivity.
  - cbn [snd log store outages trace]. split; [ reflexivity | ]. split; [ reflexivity | ].
    exists [ListObjects c b p]. repeat split; reflexivity.
Qed.

(** The events of one [_get_transformed_object]: the creation of the client
    when none was stored, one request, and the transform when the request
    was answered. *)
Lemma get_transformed_object_events (bk : S3BucketKey) (h : Heap) :
  exists (c : S3Client) (d0 : list Event),
    fst (_get_client h) = Ok c
    /\ fetched d0 = [] /\ opened d0 = [] /\ transformed d0 = []
    /\ trace (world (snd (_get_transformed_object bk h)))
       = trace (world h) ++ d0
         ++ match fetch_outcome (world h) bk with
            | Ok _ => [GetObject c bk true; Transform bk]
            | Err _ => [GetObject c bk false]
            end.
Proof.
  destruct (get_client_ready h)
    as (c & g & Hg & Hc & Ht & _ & Hst & Hou & d & Hd & Df & Dop & Dt & _).
  exists c, d. rewrite Hg. split; [ reflexivity | ].
  split; [ exact Df | ]. split; [ exact Dop | ]. split; [ exact Dt | ].
  rewrite (@get_transformed_object_ready bk h g c Hg Hc Ht), (get_transformed_object_eq g bk Hc).
  rewrite (fetch_outcome_ext (world h) (world g) bk Hst Hou).
  destruct (fetch_outcome (world h) bk); cbn [snd world log trace]; rewrite Hd, <- !app_assoc;
    reflexivity.
Qed.

(** X3.  One [next] on the [map] object makes at most one [get_object]
    request and at most one call of the transform, on the key requested.
    When it returns an item, it made exactly one request, and the item is
    the transform of the reader the store answered with: nothing is fetched
    ahead. *)
Theorem next_fetches_one_object (m : Iterable) (h : Heap) :
  exists req hnd : list S3BucketKey,
    fetched (trace (world (snd (map_next m h)))) = fetched (trace (world h)) ++ req
    /\ transformed (trace (world (snd (map_next m h)))) = transformed (trace (world h)) ++ hnd
    /\ length req <= 1
    /\ (hnd = [] \/ hnd = req)
    /\ forall x : Any,
        fst (fst (map_next m h)) = Ok x ->
        exists bk : S3BucketKey,
          req = [bk] /\ hnd = [bk]
          /\ emits (_transform (self h)) (fetch_outcome (world h)) bk x.
Proof.
  unfold map_next.
  destruct (next_key_quiet m (world h)) as (Hs & Ho & d & Hd & Df & _ & Dt & _).
  destruct (next_key m (world h)) as [[[bk | e] m'] w1]; cbn [snd] in *.
  - pose proof (get_transformed_object_result bk (mkHeap (self h) w1)) as Hres.
    destruct (get_transformed_object_events bk (mkHeap (self h) w1))
      as (c & d0 & _ & D0f & _ & D0t & Htr).
    cbn [self world] in Hres, Htr.
    rewrite (fetch_outcome_ext (world h) w1 bk Hs Ho) in Hres, Htr.
    destruct (_get_transformed_object bk (mkHeap (self h) w1)) as [r h'].
    cbn [fst snd self world] in *.
    destruct (fetch_outcome (world h) bk) as [rd | e] eqn:Hf.
    + exists [bk], [bk]. rewrite Htr, Hd.
      rewrite !fetched_app, !transformed_app, Df, Dt, D0f, D0t. cbn. rewrite !app_nil_r.
      split; [ reflexivity | ]. split; [ reflexivity | ].
      split; [ lia | ]. split; [ right; reflexivity | ].
      intros x Hx. exists bk. split; [ reflexivity | ]. split; [ reflexivity | ].
      exists rd. split; [ exact Hf | congruence ].
    + exists [bk], []. rewrite Htr, Hd.
      rewrite !fetched_app, !transformed_app, Df, Dt, D0f, D0t. cbn. rewrite !app_nil_r.
      split; [ reflexivity | ]. split; [ reflexivity | ].
      split; [ lia | ]. split; [ left; reflexivity | ].
      intros x Hx. congruence.
  - exists [], []. cbn [world fst]. rewrite Hd, fetched_app, transformed_app, Df, Dt, !app_nil_r.
    split; [ reflexivity | ]. split; [ reflexivity | ].
    split; [ cbn; lia | ]. split; [ left; reflexivity | ].
    intros x Hx. discriminate.
Qed.

(** ** What a loop receives, however it ends *)

Ltac close_case :=
  repeat split;
  solve [ constructor | left; reflexivity | right; reflexivity | reflexivity | cbn; lia ].

Lemma consume_sound (m : Iterable) :
  forall (h : Heap) (c : S3Client),
    _client (self h) = Some c ->
    exists ids rest hrest : list S3BucketKey,
      fetched (trace (world (snd (consume m h)))) = fetched (trace (world h)) ++ ids ++ rest
      /\ transformed (trace (world (snd (consume m h))))
         = transformed (trace (world h)) ++ ids ++ hrest
      /\ Forall2 (emits (_transform (self h)) (fetch_outcome (world h)))
                 ids (fst (fst (consume m h)))
      /\ length rest <= 1
      /\ (hrest = [] \/ hrest = rest).
Proof.
  induction m as [ | bk rest0 IH | e | c0 b p k IH ]; intros h c Hc; cbn [consume].
  - exists [], [], []. cbn [fst snd app]. rewrite !app_nil_r.
    close_case.
  - rewrite (get_transformed_object_eq h bk Hc).
    destruct (fetch_outcome (world h) bk) as [r | e] eqn:Hf.
    + destruct (_transform (self h) r) as [x | e] eqn:Ht.
      * destruct (IH (mkHeap (self h) (log (Transform bk) (log (GetObject c bk true) (world h))))
                     c Hc) as (ids & rest & hrest & Hfe & Htr & Hall & Hlen & Hh).
        destruct (consume rest0 _) as [[xs oe] h2]. cbn [fst snd self world] in *.
        exists (bk :: ids), rest, hrest. rewrite Hfe, Htr. read_trace.
        split; [ reflexivity | ]. split; [ reflexivity | ].
        split; [ | split; assumption ].
        constructor; [ exists r; split; assumption | exact Hall ].
      * exists [], [bk], [bk]. cbn [fst snd]. read_trace.
        close_case.
    + exists [], [bk], []. cbn [fst snd]. read_trace.
      close_case.
  - exists [], [], []. cbn [fst snd app]. rewrite !app_nil_r.
    close_case.
  - unfold in_world, list_objects.
    destruct (listing_outcome (store (world h)) b p) as [keys | e].
    + destruct (IH keys (mkHeap (self h) (log (ListObjects c0 b p) (world h))) c Hc)
        as (ids & rest & hrest & Hfe & Htr & Hall & Hlen & Hh).
      exists ids, rest, hrest. rewrite Hfe, Htr. read_trace.
      split; [ reflexivity | ]. split; [ reflexivity | ].
      split; [ exact Hall | split; assumption ].
    + exists [], [], []. cbn [fst snd]. read_trace.
      close_case.
Qed.

(** X4.  However a loop over the dataset ends, the items it received are
    the transforms of the readers of the first keys requested, one item per
    request and in the order of the requests; at most one further request
    was made, the one on which the loop stopped, and the transform was
    called on no other key. *)
Theorem items_are_fetched_objects (h : Heap) :
  exists ids rest hrest : list S3BucketKey,
    fetched (trace (world (snd (traverse h)))) = fetched (trace (world h)) ++ ids ++ rest
    /\ transformed (trace (world (snd (traverse h))))
       = transformed (trace (world h)) ++ ids ++ hrest
    /\ Forall2 (emits (_transform (self h)) (fetch_outcome (world h)))
               ids (fst (fst (traverse h)))
    /\ length rest <= 1
    /\ (hrest = [] \/ hrest = rest).
Proof.
  destruct (iter_ready h)
    as (c & g & _ & _ & Htrav & Hc & _ & Ht & Hst & Hou & _ & d & Hd & Df & _ & Dt & _).
  rewrite Htrav.
  destruct (fst (selected h c)) as [m | e].
  - destruct (consume_sound m g Hc) as (ids & rest & hrest & Hfe & Htr & Hall & Hlen & Hh).
    exists ids, rest, hrest. rewrite Hfe, Htr, Hd, fetched_app, transformed_app, Df, Dt, !app_nil_r.
    split; [ reflexivity | ]. split; [ reflexivity | ].
    split; [ | split; assumption ].
    rewrite Ht in Hall.
    replace (fetch_outcome (world h)) with (fetch_outcome (world g)); [ exact Hall | ].
    unfold fetch_outcome. rewrite Hst, Hou. reflexivity.
  - exists [], [], []. cbn [fst snd app]. rewrite Hd, fetched_app, transformed_app, Df, Dt, !app_nil_r.
    close_case.
Qed.

(** ** Every request goes through the dataset's client *)

Lemma get_client_evolves (h h' : Heap) :
  evolves h h' -> fst (_get_client h') = fst (_get_client h).
Proof.
  intros [_ _ Hr _ Hc]. destruct (_client (self h)) as [c | ] eqn:E.
  - destruct Hc as (E' & _). rewrite (get_client_some h E), (get_client_some h' E').
    reflexivity.
  - rewrite (get_client_none h E). cbn zeta. cbn [fst].
    destruct Hc as [(E' & Hn & _) | (E' & _)].
    + rewrite (get_client_none h' E'). cbn zeta. cbn [fst]. rewrite Hr, Hn. reflexivity.
    + rewrite (get_client_some h' E'). reflexivity.
Qed.

Lemma requests_by_silent (c : S3Client) (d : list Event) : fetched d = [] -> requests_by c d.
Proof.
  unfold requests_by. induction d as [ | e d IH ]; intros Hf; constructor.
  - destruct e; try exact I. discriminate.
  - apply IH. destruct e; cbn in Hf; try exact Hf. discriminate.
Qed.

Lemma requests_by_app (c : S3Client) (d1 d2 : list Event) :
  requests_by c d1 -> requests_by c d2 -> requests_by c (d1 ++ d2).
Proof. intros H1 H2. apply Forall_app. split; assumption. Qed.

Lemma served_refl (h : Heap) : served h h.
Proof. exists []. rewrite app_nil_r. split; [ reflexivity | intros c _; constructor ]. Qed.

Lemma served_trans (h1 h2 h3 : Heap) :
  evolves h1 h2 -> served h1 h2 -> served h2 h3 -> served h1 h3.
Proof.
  intros He (d1 & T1 & R1) (d2 & T2 & R2). exists (d1 ++ d2).
  split; [ rewrite T2, T1, app_assoc; reflexivity | ].
  intros c Hc. apply requests_by_app; [ apply R1; exact Hc | ].
  apply R2. rewrite (get_client_evolves He). exact Hc.
Qed.

Lemma served_silent (h h' : Heap) (d : list Event) :
  trace (world h') = trace (world h) ++ d -> fetched d = [] -> served h h'.
Proof.
  intros Ht Hf. exists d. split; [ exact Ht | intros c _; apply requests_by_silent; exact Hf ].
Qed.

Lemma served_get_client (h : Heap) : served h (snd (_get_client h)).
Proof.
  destruct (get_client_ready h) as (c & g & Hg & _ & _ & _ & _ & _ & d & Hd & Df & _).
  rewrite Hg. cbn [snd]. exact (@served_silent h g d Hd Df).
Qed.

Lemma served_get_transformed_object (bk : S3BucketKey) (h : Heap) :
  served h (snd (_get_transformed_object bk h)).
Proof.
  destruct (get_transformed_object_events bk h) as (c & d0 & Hc & D0f & _ & _ & Htr).
  eexists. split; [ exact Htr | ].
  intros c' Hc'. rewrite Hc in Hc'. inversion Hc'; subst c'.
  apply requests_by_app; [ apply requests_by_silent; exact D0f | ].
  destruct (fetch_outcome (world h) bk); repeat constructor.
Qed.

Lemma served_iter (h : Heap) : served h (snd (__iter__ h)).
Proof.
  destruct (iter_ready h) as (c & g & _ & Hit & _ & _ & _ & _ & _ & _ & _ & d & Hd & Df & _).
  rewrite Hit. cbn [snd]. exact (@served_silent h g d Hd Df).
Qed.

Lemma served_next_key (m : Iterable) (s : S3IterableDataset) (w : World) :
  served (mkHeap s w) (mkHeap s (snd (next_key m w))).
Proof.
  destruct (next_key_quiet m w) as (_ & _ & d & Hd & Df & _).
  exact (@served_silent (mkHeap s w) (mkHeap s (snd (next_key m w))) d Hd Df).
Qed.

Lemma served_map_next (m : Iterable) (h : Heap) : served h (snd (map_next m h)).
Proof.
  unfold map_next.
  pose proof (served_next_key m (self h) (world h)) as Hn.
  pose proof (evolves_next_key m (self h) (world h)) as En.
  rewrite heap_eta in Hn, En.
  destruct (next_key m (world h)) as [[[bk | e] m'] w1]; cbn [snd] in *.
  - pose proof (served_get_transformed_object bk (mkHeap (self h) w1)) as Hg.
    destruct (_get_transformed_object bk (mkHeap (self h) w1)) as [r h']. cbn [snd] in *.
    exact (served_trans En Hn Hg).
  - exact Hn.
Qed.

Lemma served_consume (m : Iterable) : forall h : Heap, served h (snd (consume m h)).
Proof.
  induction m as [ | bk rest IH | e | c b p k IH ]; intros h; cbn [consume snd];
    try apply served_refl.
  - pose proof (served_get_transformed_object bk h) as Hg.
    pose proof (frames_get_transformed_object bk h) as Eg.
    destruct (_get_transformed_object bk h) as [[x | e] h1]; cbn [snd] in *.
    + specialize (IH h1). destruct (consume rest h1) as [[xs oe] h2]. cbn [snd] in *.
      exact (served_trans Eg Hg IH).
    + exact Hg.
  - pose proof (frames_in_world (quiet_list_objects c b p) h) as El.
    assert (Hl : served h (snd (in_world (list_objects c b p) h))).
    { unfold in_world, list_objects. cbn [snd].
      apply served_silent with (d := [ListObjects c b p]); reflexivity. }
    destruct (in_world (list_objects c b p) h) as [[keys | e] h1]; cbn [snd] in *.
    + exact (served_trans El Hl (IH keys h1)).
    + exact Hl.
Qed.

Lemma served_traverse (h : Heap) : served h (snd (traverse h)).
Proof.
  unfold traverse. pose proof (frames_iter h) as Ei.
  pose proof (served_iter h) as Hi.
  destruct (__iter__ h) as [[m | e] h1]; cbn [snd] in *.
  - exact (served_trans Ei Hi (served_consume m h1)).
  - exact Hi.
Qed.

Lemma served_exec (o : Op) (h : Heap) : served h (exec o h).
Proof.
  destruct o; cbn [exec].
  - apply served_refl.
  - apply served_get_client.
  - apply served_get_transformed_object.
  - apply served_iter.
  - apply served_map_next.
  - apply served_traverse.
Qed.

Lemma served_exec_all (ops : list Op) : forall h : Heap, served h (exec_all ops h).
Proof.
  induction ops as [ | o ops IH ]; intros h; cbn [exec_all fold_left].
  - apply served_refl.
  - exact (served_trans (evolves_exec o h) (served_exec o h) (IH (exec o h))).
Qed.

(** X5.  Over any sequence of operations, every [get_object] request the
    dataset makes goes through one and the same client: the one
    [_get_client] returns before the operations and still returns after
    them. *)
Theorem requests_go_through_one_client (ops : list Op) (h : Heap) :
  exists (c : S3Client) (d : list Event),
    fst (_get_client h) = Ok c
    /\ fst (_get_client (exec_all ops h)) = Ok c
    /\ trace (world (exec_all ops h)) = trace (world h) ++ d
    /\ requests_by c d.
Proof.
  destruct (get_client_ready h) as (c & g & Hg & _).
  destruct (served_exec_all ops h) as (d & Hd & Hr).
  exists c, d. rewrite (get_client_evolves (evolves_exec_all ops h)), Hg.
  split; [ reflexivity | ]. split; [ reflexivity | ]. split; [ exact Hd | ].
  apply Hr. rewrite Hg. reflexivity.
Qed.

(** ** The [map] object after an exception *)

Lemma next_key_elements (m : Iterable) :
  forall (w : World) (bk : S3BucketKey) (rest : list S3BucketKey),
    elements (store w) m = Ok (bk :: rest) ->
    exists m' : Iterable,
      fst (next_key m w) = (Ok bk, m') /\ elements (store w) m' = Ok rest.
Proof.
  induction m as [ | bk0 rest0 IH | e | c b p k IH ]; intros w bk rest Hel;
    cbn [elements] in Hel; try discriminate.
  - destruct (elements (store w) rest0) as [l | e] eqn:Hr; [ | discriminate ].
    inversion Hel; subst. exists rest0. split; [ reflexivity | exact Hr ].
  - cbn [next_key]. unfold list_objects.
    destruct (listing_outcome (store w) b p) as [keys | e]; [ | discriminate ].
    apply (IH keys (log (ListObjects c b p) w) bk rest Hel).
Qed.

(** X6.  A [next] whose key is [bk] leaves the [map] object at the keys
    after [bk] whether it returns an item or raises the exception of the
    request or of the transform; [bk] has been requested once.  An
    exception does not end the [map] object: the following [next] goes on
    with the following key. *)
Theorem next_advances_on_any_outcome
        (m : Iterable) (h : Heap) (bk : S3BucketKey) (rest : list S3BucketKey) :
  elements (store (world h)) m = Ok (bk :: rest) ->
  exists (m' : Iterable) (h' : Heap),
    map_next m h
    = (match fetch_outcome (world h) bk with
       | Ok r => _transform (self h) r
       | Err e => Err e
       end, m', h')
    /\ elements (store (world h')) m' = Ok rest
    /\ fetched (trace (world h')) = fetched (trace (world h)) ++ [bk].
Proof.
  intros Hel. unfold map_next.
  destruct (next_key_elements m (world h) Hel) as (m' & Hn & Hel').
  destruct (next_key_quiet m (world h)) as (Hs & Ho & d & Hd & Df & _).
  destruct (next_key m (world h)) as [[r0 m0] w1]. cbn [fst snd] in *.
  inversion Hn; subst r0 m0.
  pose proof (get_transformed_object_result bk (mkHeap (self h) w1)) as Hres.
  pose proof (frames_get_transformed_object bk (mkHeap (self h) w1)) as [_ _ _ Hst _].
  destruct (get_transformed_object_events bk (mkHeap (self h) w1))
    as (c & d0 & _ & D0f & _ & _ & Htr).
  cbn [self world] in Hres, Htr, Hst.
  rewrite (fetch_outcome_ext (world h) w1 bk Hs Ho) in Hres, Htr.
  destruct (_get_transformed_object bk (mkHeap (self h) w1)) as [r h'].
  cbn [fst snd] in *. exists m', h'. subst r.
  split; [ reflexivity | ]. split; [ rewrite Hst, Hs; exact Hel' | ].
  rewrite Htr, Hd, !fetched_app, Df, D0f.
  destruct (fetch_outcome (world h) bk); cbn; rewrite !app_nil_r; reflexivity.
Qed.

(** ** A transform given at construction *)

(** X7.  The transform passed to [__init__], [from_objects] or
    [from_prefix] is the one the dataset applies: after any operations,
    [_get_transformed_object] returns what that transform returns on the
    reader [get_object] returned, raises what it raises, and raises the
    exception of [get_object] without calling it when the request fails. *)
Theorem given_transform_is_applied
        (identity : S3Reader -> result Any)
        (uris_helper : ObjectUris -> S3Client -> M Iterators Iterable)
        (prefix_helper : string -> S3Client -> M Iterators Iterable)
        (sel : S3Client -> M Iterators Iterable) (object_uris : ObjectUris) (s3_uri : string)
        (rgn : string) (tf : S3Reader -> result Any)
        (w : World) (ops : list Op) (bk : S3BucketKey) :
  let ds := mkDataset sel tf rgn None in
  let h := exec_all ops (mkHeap ds w) in
  __init__ identity rgn sel (Some tf) w = (Ok ds, w)
  /\ from_objects identity uris_helper object_uris rgn (Some tf) w
     = (Ok (mkDataset (partial uris_helper object_uris) tf rgn None), w)
  /\ from_prefix identity prefix_helper s3_uri rgn (Some tf) w
     = (Ok (mkDataset (partial prefix_helper s3_uri) tf rgn None), w)
  /\ fst (_get_transformed_object bk h)
     = match fetch_outcome (world h) bk with
       | Ok r => tf r
       | Err e => Err e
       end
  /\ transformed (trace (world (snd (_get_transformed_object bk h))))
     = transformed (trace (world h))
       ++ match fetch_outcome (world h) bk with
          | Ok _ => [bk]
          | Err _ => []
          end.
Proof.
  intros ds h. split; [ reflexivity | ]. split; [ reflexivity | ]. split; [ reflexivity | ].
  destruct (evolves_exec_all ops (mkHeap ds w)) as [_ Ht _ _ _]. fold h in Ht.
  cbn [self _transform ds] in Ht. split.
  - rewrite get_transformed_object_result, Ht. reflexivity.
  - destruct (get_transformed_object_events bk h) as (c & d0 & _ & _ & _ & D0t & Htr).
    rewrite Htr, !transformed_app, D0t.
    destruct (fetch_outcome (world h) bk); cbn; rewrite ?app_nil_r; reflexivity.
Qed.

(** Witness of X6: the transform that raises on [b.bin], asked for [b.bin]
    first. *)
Lemma next_advances_on_any_outcome_witness :
  exists (m' : Iterable) (h' : Heap),
    map_next (of_list [Demo.b_bin; Demo.a_bin]) Demo.picky_heap
    = (Err (UserError "boom"), m', h')
    /\ elements (store (world h')) m' = Ok [Demo.a_bin]
    /\ fetched (trace (world h')) = [Demo.b_bin].
Proof.
  apply (@next_advances_on_any_outcome (of_list [Demo.b_bin; Demo.a_bin]) Demo.picky_heap
                                       Demo.b_bin [Demo.a_bin]).
  reflexivity.
Defined.

(** ** A transform that raises [StopIteration] *)

(** X8.  When the transform raises [StopIteration] on the reader of [id],
    the loop ends as if the dataset were exhausted: it receives the items
    of the keys before [id] and no exception, and the keys after [id] are
    never requested. *)
Theorem stop_iteration_truncates
        (h : Heap) (c : S3Client) (m : Iterable)
        (pre : list S3BucketKey) (id : S3BucketKey) (post : list S3BucketKey)
        (r : S3Reader) :
  fst (_get_client h) = Ok c ->
  fst (selected h c) = Ok m ->
  elements (store (world h)) m = Ok (pre ++ id :: post) ->
  Forall (fun i => exists x, emits (_transform (self h)) (fetch_outcome (world h)) i x) pre ->
  fetch_outcome (world h) id = Ok r ->
  _transform (self h) r = Err StopIteration ->
  exists (items : list Any) (h' : Heap),
    traverse h = (items, None, h')
    /\ Forall2 (emits (_transform (self h)) (fetch_outcome (world h))) pre items
    /\ fetched (trace (world h')) = fetched (trace (world h)) ++ pre ++ [id].
Proof.
  intros Hcl Hsel Hel Hall Hid He.
  destruct (iter_ready h)
    as (c1 & h1 & Hg & _ & Htrav & Hc1 & _ & Ht & Hst & Hou & _ & d & Hd & Df & _ & Dt & _).
  rewrite Hg in Hcl. inversion Hcl; subst c1.
  rewrite Htrav, Hsel.
  destruct (outline_all_ok Hall) as (items & _ & Hf2).
  pose proof (outline_transform_error id post Hf2 Hid He) as Hout.
  cbn [stop_cause] in Hout.
  destruct (@consume_outline m (pre ++ id :: post) h1 c items None (pre ++ [id]) (pre ++ [id]))
    as (h' & Hcons & _ & _ & Hfe & _).
  - rewrite Hst. exact Hel.
  - exact Hc1.
  - rewrite Ht. rewrite <- Hout. f_equal.
    unfold fetch_outcome. rewrite Hst, Hou. reflexivity.
  - exists items, h'. split; [ exact Hcons | ]. split; [ exact Hf2 | ].
    rewrite Hfe, Hd, fetched_app, Df, !app_nil_r. reflexivity.
Qed.

(** Witness of X8: three keys, the transform stopping on the second. *)
Lemma stop_iteration_truncates_witness :
  exists (items : list Any) (h' : Heap),
    traverse Demo.stopping_three = (items, None, h')
    /\ Forall2 (emits Demo.stopping (fetch_outcome Demo.w0)) [Demo.a_bin] items
    /\ fetched (trace (world h')) = [Demo.a_bin; Demo.b_bin].
Proof.
  apply (@stop_iteration_truncates Demo.stopping_three Demo.client0
                                   (of_list [Demo.a_bin; Demo.b_bin; Demo.a_bin])
                                   [Demo.a_bin] Demo.b_bin [Demo.a_bin]
                                   (Demo.reader Demo.b_bin)).
  - reflexivity.
  - reflexivity.
  - reflexivity.
  - repeat constructor.
    exists (AnyBytes Demo.payload), (Demo.reader Demo.a_bin). split; reflexivity.
  - reflexivity.
  - reflexivity.
Defined.

(** * The client handle, created once *)

Lemma exec_stores_client (o : Op) (h : Heap) :
  needs_client o = true -> exists c : S3Client, _client (self (exec o h)) = Some c.
Proof.
  destruct o; cbn [needs_client exec]; intros Hn; try discriminate.
  - destruct (get_client_ready h) as (c & g & Hg & Hc & _). rewrite Hg. exists c. exact Hc.
  - destruct (get_client_ready h) as (c & g & Hg & Hc & Ht & _).
    rewrite (@get_transformed_object_ready bk h g c Hg Hc Ht).
    destruct (frames_get_transformed_object bk g) as [_ _ _ _ Hk].
    rewrite Hc in Hk. exists c. apply Hk.
  - destruct (iter_ready h) as (c & g & _ & Hit & _ & Hc & _). rewrite Hit. exists c. exact Hc.
  - destruct (iter_ready h) as (c & g & _ & _ & Htrav & Hc & _). rewrite Htrav. exists c.
    destruct (fst (selected h c)) as [m | e]; [ | exact Hc ].
    destruct (evolves_consume m g) as [_ _ _ _ Hk]. rewrite Hc in Hk. apply Hk.
Qed.

Lemma exec_all_stores_client (ops : list Op) :
  forall h : Heap,
    existsb needs_client ops = true ->
    exists c : S3Client, _client (self (exec_all ops h)) = Some c.
Proof.
  induction ops as [ | o ops IH ]; intros h Hn; cbn [existsb] in Hn; [ discriminate | ].
  cbn [exec_all fold_left]. destruct (needs_client o) eqn:Ho.
  - destruct (exec_stores_client o h Ho) as (c & Hc). exists c.
    destruct (evolves_exec_all ops (exec o h)) as [_ _ _ _ Hk]. rewrite Hc in Hk. apply Hk.
  - apply IH. exact Hn.
Qed.

Lemma exec_all_region_only (ops : list Op) (h : Heap) :
  Forall (fun o => o = OpRegion) ops -> exec_all ops h = h.
Proof.
  induction 1 as [ | o ops -> _ IH ]; [ reflexivity | exact IH ].
Qed.

(** C3.  A dataset creates at most one client handle, and creates it on
    the first operation that needs it.  Construction creates none and
    reading [region] changes nothing.  The first [_get_client] creates a
    handle for the region and stores it; after any operations among which
    one calls [_get_client] the handle [c0] of that first creation is the
    stored one.  At any point either no handle exists yet and none was
    created, or exactly [c0] was created and is stored; every later
    [_get_client], whatever is run in between, then returns [c0] and changes
    nothing, so no other handle is ever created. *)
Theorem single_client_handle
        (identity : S3Reader -> result Any) (rgn : string)
        (sel : S3Client -> M Iterators Iterable)
        (tf : option (S3Reader -> result Any)) (w : World) :
  let ds := mkDataset sel (default identity tf) rgn None in
  let c0 := mkClient rgn (clients_created w) in
  __init__ identity rgn sel tf w = (Ok ds, w)
  /\ (forall ops : list Op,
         Forall (fun o => o = OpRegion) ops -> exec_all ops (mkHeap ds w) = mkHeap ds w)
  /\ _get_client (mkHeap ds w)
     = (Ok c0,
        mkHeap (with_client ds c0)
               (mkWorld (store w) (outages w) (S (clients_created w))
                        (trace w ++ [NewClient c0]) (iterators w)))
  /\ forall ops : list Op,
      let h' := exec_all ops (mkHeap ds w) in
      (existsb needs_client ops = true -> _client (self h') = Some c0)
      /\ ((_client (self h') = None /\ clients (trace (world h')) = clients (trace w))
          \/ (_client (self h') = Some c0
              /\ clients (trace (world h')) = clients (trace w) ++ [c0]
              /\ forall ops' : list Op,
                  _get_client (exec_all ops' h') = (Ok c0, exec_all ops' h')
                  /\ clients (trace (world (exec_all ops' h'))) = clients (trace w) ++ [c0])).
Proof.
  intros ds c0. split; [ reflexivity | ].
  split; [ intros ops Hr; apply exec_all_region_only; exact Hr | ].
  split; [ reflexivity | ].
  intros ops h'.
  destruct (evolves_exec_all ops (mkHeap ds w)) as [_ _ _ _ Hc].
  fold h' in Hc. cbn [self world _client _region ds] in Hc. fold c0 in Hc.
  split.
  - intros Hn. destruct (exec_all_stores_client ops (mkHeap ds w) Hn) as (c & Hs).
    fold h' in Hs. destruct Hc as [(Hnone & _) | (Hsome & _)]; [ congruence | exact Hsome ].
  - destruct Hc as [(Hn & _ & Hl) | (Hs & _ & Hl)].
    + left. split; assumption.
    + right. split; [ exact Hs | ]. split; [ exact Hl | ].
      intros ops'.
      destruct (evolves_exec_all ops' h') as [_ _ _ _ Hc'].
      rewrite Hs in Hc'. destruct Hc' as (Hs' & _ & Hl').
      rewrite (get_client_some _ Hs'). split; [ reflexivity | congruence ].
Qed.

(** * A second loop *)



(** A string and a collection of URIs are read without being changed: the
    selection callable [from_objects] builds from them returns the same,
    whatever the caller's iterators hold. *)
Lemma collection_uris_repeatable (object_uris : ObjectUris) (c : S3Client) (k k' : Iterators) :
  (forall ref : nat, object_uris <> UriIterator ref) ->
  fst (Common.get_objects_from_uris object_uris c k)
  = fst (Common.get_objects_from_uris object_uris c k').
Proof.
  intros Hn. destruct object_uris as [u | us | ref]; try reflexivity.
  exfalso. exact (Hn ref eq_refl).
Qed.


(** Counterexample to C1: the selector produced three keys and the store
    answers all three, yet the loop receives one item and no exception,
    because the transform raised on the second reader. *)
Lemma answered_keys_not_all_emitted :
  fst (selected Demo.stopping_three Demo.client0)
  = Ok (of_list [Demo.a_bin; Demo.b_bin; Demo.a_bin])
  /\ elements Demo.st (of_list [Demo.a_bin; Demo.b_bin; Demo.a_bin])
     = Ok [Demo.a_bin; Demo.b_bin; Demo.a_bin]
  /\ map (fetch_outcome (world Demo.stopping_three)) [Demo.a_bin; Demo.b_bin; Demo.a_bin]
     = [Ok (Demo.reader Demo.a_bin); Ok (Demo.reader Demo.b_bin); Ok (Demo.reader Demo.a_bin)]
  /\ fst (traverse Demo.stopping_three) = ([AnyBytes Demo.payload], None)
  /\ length (fst (fst (traverse Demo.stopping_three))) <> 3.
Proof. repeat split. discriminate. Qed.

